(** * parserlib: rules, ordered choice and the left-recursion protocol

    A shallow embedding of the rule layer of parserlib.

    Two rule implementations coexist in the sources:
    - [Rule.hpp] with [ChoiceParser.hpp]: the recursion state and the parse
      position are fields of the rule object, left recursion is signalled by
      throwing [LeftRecursionException], and the ordered choice catches it;
    - [rule.hpp]: [rule::parse] is [const], entry positions are kept in
      [pc.positions] keyed by the rule, the left-recursion state and anchor
      are one record of the parse context, and the outcome is a four-valued
      [parse_result].

    Parser nodes are C++ callables [bool operator()(ParseContext&)] that may
    throw; here a node is a function from the machine state to an outcome and
    a new machine state, [None] standing for a call that has not returned
    within the loop budget. *)

From Stdlib Require Import Ascii.
From stdpp Require Import base decidable option list gmap strings.

Set Default Proof Using "Type".

(** ** Positions, matches and the parse context *)

Definition Position := nat.
Definition RuleId := nat.

(** A match record: label, half-open span and child matches. *)
#[local] Unset Elimination Schemes.
Inductive Match : Type :=
  | MkMatch (m_id : nat) (m_begin m_end : Position) (m_children : list Match).
#[local] Set Elimination Schemes.

(** Modelled from the spec: the parse context of the [Rule.hpp] family
    ([ParseContext.hpp] is not among the sources).  It holds the input, the
    cursor and the list of matches built so far. *)
Record ParseContext : Type := MkParseContext {
  m_input : list ascii;
  m_position : Position;
  m_matches : list Match
}.

Definition sourcePosition (pc : ParseContext) : Position := m_position pc.
Definition sourceEndPosition (pc : ParseContext) : Position := length (m_input pc).

(** [parser_state.cpp]: a snapshot is the number of sub-nodes (matches) and
    the position; [restore] resizes the sub-node list back and resets the
    position. *)
Record parser_state : Type := MkParserState {
  m_subnodes_count : nat;
  m_state_position : Position
}.

Definition parser_state_new (subnodes : list Match) (pos : Position) : parser_state :=
  {| m_subnodes_count := length subnodes; m_state_position := pos |}.

(** Modelled from the spec: [resize_subnodes] (declared in [parse_node], not
    among the sources) truncates the list to the recorded count. *)
Definition resize_subnodes (n : nat) (subnodes : list Match) : list Match :=
  take n subnodes.

Definition restore (st : parser_state) (subnodes : list Match) (pos : Position)
  : list Match * Position :=
  (resize_subnodes (m_subnodes_count st) subnodes, m_state_position st).

(** Modelled from the spec: [ParseContext::state] and [ParseContext::setState]
    capture and restore (cursor, match-list length), as [parser_state] does. *)
Definition state (pc : ParseContext) : parser_state :=
  parser_state_new (m_matches pc) (m_position pc).

Definition setState (st : parser_state) (pc : ParseContext) : ParseContext :=
  let '(ms, pos) := restore st (m_matches pc) (m_position pc) in
  {| m_input := m_input pc; m_position := pos; m_matches := ms |}.

(** ** Rule objects ([Rule.hpp]) *)

Module Rule.

Inductive State : Type := Normal | Reject | Accept.

(** The mutable fields of a [Rule] object; [m_parser] is kept apart since it
    is never reassigned. *)
Record t : Type := Mk {
  m_parsePosition : option Position;
  m_state : State
}.

(** A freshly constructed rule: no parse position, [m_state{ Normal }]. *)
Definition init : t := {| m_parsePosition := None; m_state := Normal |}.

Definition heap := RuleId -> t.

Definition upd (h : heap) (r : RuleId) (v : t) : heap :=
  fun r' => if decide (r' = r) then v else h r'.

Definition setParsePosition (position : Position) (v : t) : t :=
  {| m_parsePosition := Some position; m_state := m_state v |}.

Definition setRejectState (v : t) : t :=
  {| m_parsePosition := m_parsePosition v; m_state := Reject |}.

Definition setAcceptState (v : t) : t :=
  {| m_parsePosition := m_parsePosition v; m_state := Accept |}.

(** [m_parsePosition == pc.sourcePosition()] on a [std::optional]. *)
Definition at_position (v : t) (pos : Position) : bool :=
  match m_parsePosition v with
  | Some p => bool_decide (p = pos)
  | None => false
  end.

End Rule.

(** ** Machine state, outcomes and parser nodes *)

Record World : Type := MkWorld {
  pc : ParseContext;
  rules : Rule.heap
}.

Definition with_pc (f : ParseContext -> ParseContext) (w : World) : World :=
  {| pc := f (pc w); rules := rules w |}.

Definition with_rule (r : RuleId) (f : Rule.t -> Rule.t) (w : World) : World :=
  {| pc := pc w; rules := Rule.upd (rules w) r (f (rules w r)) |}.

(** What a call of a parser node does: return a [bool], or throw a
    [LeftRecursionException] carrying the rule. *)
Inductive Outcome : Type :=
  | Ret (b : bool)
  | Throw (r : RuleId).

Definition Result : Type := option (Outcome * World).
Definition Node : Type := World -> Result.

Module RuleCall.

(** [Rule::operator()(ParseContextType& pc)] for the rule [this] whose
    [m_parser] is [m_parser]. *)
Definition operator_call (this : RuleId) (m_parser : Node) : Node := fun w =>
  if Rule.at_position (rules w this) (sourcePosition (pc w)) then
    match Rule.m_state (rules w this) with
    | Rule.Normal => Some (Throw this, w)
    | Rule.Reject => Some (Ret false, w)
    | Rule.Accept => Some (Ret true, w)
    end
  else
    let prevParsePosition := Rule.m_parsePosition (rules w this) in
    let prevState := Rule.m_state (rules w this) in
    let w1 := with_rule this (fun _ =>
                {| Rule.m_parsePosition := Some (sourcePosition (pc w));
                   Rule.m_state := Rule.Normal |}) w in
    match m_parser w1 with
    | None => None
    | Some (Throw x, w2) => Some (Throw x, w2)
    | Some (Ret result, w2) =>
        Some (Ret result,
              with_rule this (fun _ =>
                {| Rule.m_parsePosition := prevParsePosition;
                   Rule.m_state := prevState |}) w2)
    end.

End RuleCall.

(** ** Ordered choice ([ChoiceParser.hpp]) *)

Module ChoiceParser.

(** The [while (true)] loop of the catch block: the left-recursive
    alternative [child] is re-invoked with the rule's parse position moved
    to the cursor, until it returns [false] or the cursor is at the end. *)
Fixpoint growLoop (fuel : nat) (r : RuleId) (child : Node) (w : World) : Result :=
  match fuel with
  | O => None
  | S fuel' =>
      let w1 := with_rule r (Rule.setParsePosition (sourcePosition (pc w))) w in
      match child w1 with
      | None => None
      | Some (Throw x, w2) => Some (Throw x, w2)
      | Some (Ret false, w2) => Some (Ret true, w2)
      | Some (Ret true, w2) =>
          if bool_decide (sourcePosition (pc w2) = sourceEndPosition (pc w2))
          then Some (Ret true, w2)
          else growLoop fuel' r child w2
      end
  end.

(** [parseTuple<Index>] on the children from [Index] on. *)
Fixpoint parseTuple (fuel : nat) (children : list Node) (w : World) : Result :=
  match children with
  | [] => Some (Ret false, w)
  | child :: rest =>
      let st := state (pc w) in
      match child w with
      | None => None
      | Some (Ret true, w1) => Some (Ret true, w1)
      | Some (Ret false, w1) => parseTuple fuel rest (with_pc (setState st) w1)
      | Some (Throw r, w1) =>
          let w2 := with_rule r Rule.setRejectState w1 in
          match parseTuple fuel rest w2 with
          | None => None
          | Some (Throw r', w3) => Some (Throw r', w3)
          | Some (Ret false, w3) => Some (Throw r, w3)
          | Some (Ret true, w3) =>
              growLoop fuel r child (with_rule r Rule.setAcceptState w3)
          end
      end
  end.

Definition operator_call (fuel : nat) (m_children : list Node) : Node :=
  parseTuple fuel m_children.

End ChoiceParser.

(** ** The other parser nodes of the [Rule.hpp] family

    [TerminalParser.hpp], [EmptyParser.hpp], [SequenceParser.hpp] and
    [Match.hpp] are included by the sources but are not among them; they are
    used below only to build concrete grammars. *)

(** Modelled from the spec: the single-element terminal succeeds when the
    cursor is not at the end and the element under it equals the literal, and
    then advances by one; otherwise it leaves the cursor and rejects. *)
Definition TerminalParser (c : ascii) : Node := fun w =>
  match m_input (pc w) !! sourcePosition (pc w) with
  | Some x =>
      if decide (x = c)
      then Some (Ret true,
                 with_pc (fun p => {| m_input := m_input p;
                                      m_position := S (m_position p);
                                      m_matches := m_matches p |}) w)
      else Some (Ret false, w)
  | None => Some (Ret false, w)
  end.

(** Modelled from the spec: empty always succeeds and never advances. *)
Definition EmptyParser : Node := fun w => Some (Ret true, w).

Module SequenceParser.

Fixpoint parseTuple (children : list Node) (w : World) : Result :=
  match children with
  | [] => Some (Ret true, w)
  | child :: rest =>
      match child w with
      | None => None
      | Some (Throw r, w1) => Some (Throw r, w1)
      | Some (Ret false, w1) => Some (Ret false, w1)
      | Some (Ret true, w1) => parseTuple rest w1
      end
  end.

(** Modelled from the spec: the children are invoked left to right; when
    one rejects, cursor and match list go back to the snapshot taken before
    the first.  A thrown exception passes through untouched. *)
Definition operator_call (m_children : list Node) : Node := fun w =>
  let st := state (pc w) in
  match parseTuple m_children w with
  | Some (Ret false, w1) => Some (Ret false, with_pc (setState st) w1)
  | res => res
  end.

End SequenceParser.

Module MatchParser.

(** Modelled from the spec: on success the matches added by the child (the
    suffix past the snapshot length) are wrapped into one record with the
    label and the span from the start position to the cursor; on failure
    the match list is truncated to the snapshot. *)
Definition operator_call (m_child : Node) (m_matchId : nat) : Node := fun w =>
  let start := sourcePosition (pc w) in
  let n := length (m_matches (pc w)) in
  match m_child w with
  | None => None
  | Some (Throw r, w1) => Some (Throw r, w1)
  | Some (Ret false, w1) =>
      Some (Ret false,
            with_pc (fun p => {| m_input := m_input p;
                                 m_position := m_position p;
                                 m_matches := take n (m_matches p) |}) w1)
  | Some (Ret true, w1) =>
      Some (Ret true,
            with_pc (fun p =>
              {| m_input := m_input p;
                 m_position := m_position p;
                 m_matches := take n (m_matches p) ++
                   [MkMatch m_matchId start (m_position p) (drop n (m_matches p))] |})
              w1)
  end.

End MatchParser.

(** ** Grammars: rules bound to parser expressions *)

Module Grammar.

(** A parser expression; [RuleReference r] is the only edge into a rule. *)
#[local] Unset Elimination Schemes.
Inductive Expr : Type :=
  | Terminal (c : ascii)
  | Empty
  | Sequence (children : list Expr)
  | Choice (children : list Expr)
  | Tagged (child : Expr) (matchId : nat)
  | RuleReference (r : RuleId).
#[local] Set Elimination Schemes.

(** The [m_parser] of every rule. *)
Definition t := RuleId -> Expr.

(** Calls nest through [Rule::operator()] without bound, so the call depth
    is budgeted; the same budget bounds the grow loop of a choice. *)
Fixpoint run (g : t) (fuel : nat) (e : Expr) {struct fuel} : Node :=
  match fuel with
  | O => fun _ => None
  | S n =>
      match e with
      | Terminal c => TerminalParser c
      | Empty => EmptyParser
      | Sequence children => SequenceParser.operator_call (map (run g n) children)
      | Choice children => ChoiceParser.operator_call n (map (run g n) children)
      | Tagged child matchId => MatchParser.operator_call (run g n child) matchId
      | RuleReference r => RuleCall.operator_call r (run g n (g r))
      end
  end.

(** A parse context at the start of [input]. *)
Definition start (input : string) : ParseContext :=
  {| m_input := String.list_ascii_of_string input; m_position := 0; m_matches := [] |}.

(** What the caller of a parse observes. *)
Record Report : Type := MkReport {
  verdict : Outcome;
  cursor : Position;
  forest : list Match
}.

Definition report (res : Outcome * World) : Report :=
  {| verdict := res.1;
     cursor := sourcePosition (pc res.2);
     forest := m_matches (pc res.2) |}.

(** Modelled from the spec: the parse entry point takes a grammar rule and
    an input, builds a parse context of its own and invokes the rule.  The
    rule objects are those of the grammar, in the state [h] the previous
    use left them in. *)
Definition parse (g : t) (fuel : nat) (r : RuleId) (h : Rule.heap) (input : string)
  : Result :=
  run g fuel (RuleReference r) {| pc := start input; rules := h |}.

(** All rules as constructed. *)
Definition fresh : Rule.heap := fun _ => Rule.init.

End Grammar.

(** ** The verdict-based rule ([rule.hpp]) *)

Module rule.

Inductive parse_result : Type :=
  | accepted
  | rejected
  | accepted_left_recursion
  | rejected_left_recursion.

Inductive left_recursion_state : Type := inactive | reject | accept.

(** [pc.left_recursion]: its [state] and [position]. *)
Record left_recursion_t : Type := MkLeftRecursion {
  lr_state : left_recursion_state;
  lr_position : Position
}.

(** Modelled from the spec: the parse context of [rule.hpp]
    ([parse_context.hpp] is not among the sources), with the members
    [rule::parse] uses. *)
Record parse_context : Type := MkContext {
  position : Position;
  end_position : Position;
  positions : gmap RuleId (list Position);
  left_recursion : left_recursion_t
}.

(** Modelled from the spec: [pc.valid()] holds while the cursor is not at
    the end of the input. *)
Definition valid (pc : parse_context) : bool :=
  negb (bool_decide (position pc = end_position pc)).

Definition expression : Type := parse_context -> option (parse_result * parse_context).

Definition set_positions (m : gmap RuleId (list Position)) (pc : parse_context)
  : parse_context :=
  {| position := position pc; end_position := end_position pc;
     positions := m; left_recursion := left_recursion pc |}.

Definition set_left_recursion (lr : left_recursion_t) (pc : parse_context)
  : parse_context :=
  {| position := position pc; end_position := end_position pc;
     positions := positions pc; left_recursion := lr |}.

(** [pc.positions[this]]: the entry positions of the rule, oldest first;
    a rule never entered has the empty vector. *)
Definition stack (this : RuleId) (pc : parse_context) : list Position :=
  default [] (positions pc !! this).

(** [activate]: push the position, report whether the two newest entries
    are equal. *)
Definition activate (this : RuleId) (pc : parse_context) : bool * parse_context :=
  let positions' := stack this pc ++ [position pc] in
  (bool_decide (2 <= length positions') &&
     bool_decide (positions' !! (length positions' - 1)
                  = positions' !! (length positions' - 2)),
   set_positions (<[this := positions']> (positions pc)) pc).

(** [deactivate]: pop the newest entry of the rule's vector.  The source
    dereferences [pc.positions.find(this)] unchecked; the entry exists since
    [activate] has run, and a context without it is left alone here. *)
Definition deactivate (this : RuleId) (pc : parse_context) : parse_context :=
  match positions pc !! this with
  | Some s => set_positions (<[this := take (length s - 1) s]> (positions pc)) pc
  | None => pc
  end.

(** The [for (bool loop = true; loop && pc.valid(); )] loop of the
    [inactive] case. *)
Fixpoint lr_loop (fuel : nat) (m_expression : expression) (result : parse_result)
    (pc : parse_context) : option (parse_result * parse_context) :=
  match fuel with
  | O => None
  | S fuel' =>
      if valid pc then
        let pc1 := set_left_recursion
                     {| lr_state := lr_state (left_recursion pc);
                        lr_position := position pc |} pc in
        match m_expression pc1 with
        | None => None
        | Some (accepted, pc2) | Some (accepted_left_recursion, pc2) =>
            lr_loop fuel' m_expression result pc2
        | Some (rejected, pc2) => Some (result, pc2)
        | Some (rejected_left_recursion, pc2) => Some (rejected_left_recursion, pc2)
        end
      else Some (result, pc)
  end.

(** The body of the [switch (pc.left_recursion.state)], between [activate]
    and [deactivate]. *)
Definition dispatch (fuel : nat) (m_expression : expression)
    (is_left_recursive : bool) (pc : parse_context)
  : option (parse_result * parse_context) :=
  match lr_state (left_recursion pc) with
  | inactive =>
      if negb is_left_recursive then
        let prev_left_recursion := left_recursion pc in
        match m_expression pc with
        | None => None
        | Some (result, pc1) =>
            match lr_state (left_recursion pc1) with
            | reject =>
                match
                  match result with
                  | accepted =>
                      lr_loop fuel m_expression result
                        (set_left_recursion
                           {| lr_state := accept;
                              lr_position := lr_position (left_recursion pc1) |} pc1)
                  | _ => Some (result, pc1)
                  end
                with
                | None => None
                | Some (result', pc2) =>
                    Some (result', set_left_recursion prev_left_recursion pc2)
                end
            | _ => Some (result, pc1)
            end
        end
      else
        Some (rejected_left_recursion,
              set_left_recursion {| lr_state := reject; lr_position := position pc |} pc)
  | reject =>
      if negb is_left_recursive then
        if bool_decide (lr_position (left_recursion pc) < position pc) then
          let prev_left_recursion := left_recursion pc in
          match m_expression
                  (set_left_recursion
                     {| lr_state := inactive; lr_position := position pc |} pc) with
          | None => None
          | Some (result, pc1) =>
              Some (result, set_left_recursion prev_left_recursion pc1)
          end
        else m_expression pc
      else Some (rejected_left_recursion, pc)
  | accept =>
      if negb is_left_recursive then
        if bool_decide (lr_position (left_recursion pc) < position pc) then
          let prev_left_recursion := left_recursion pc in
          match m_expression
                  (set_left_recursion
                     {| lr_state := inactive; lr_position := position pc |} pc) with
          | None => None
          | Some (result, pc1) =>
              Some (result, set_left_recursion prev_left_recursion pc1)
          end
        else
          match m_expression pc with
          | None => None
          | Some (accepted, pc1) => Some (accepted_left_recursion, pc1)
          | Some (result, pc1) => Some (result, pc1)
          end
      else Some (accepted, pc)
  end.

(** [rule::parse(ParseContext& pc) const] for the rule [this] whose
    [m_expression] is [m_expression]. *)
Definition parse (fuel : nat) (this : RuleId) (m_expression : expression)
    (pc : parse_context) : option (parse_result * parse_context) :=
  let '(is_left_recursive, pc1) := activate this pc in
  match dispatch fuel m_expression is_left_recursive pc1 with
  | None => None
  | Some (result, pc2) => Some (result, deactivate this pc2)
  end.

End rule.

(** ** Notions used in the statements *)

(** A node [c'] extends [c] when it returns whatever [c] returns. *)
Definition extends (c c' : Node) : Prop :=
  forall w res, c w = Some res -> c' w = Some res.

(** The outcome of a second entry at the recorded position. *)
Definition reentry_outcome (this : RuleId) (s : Rule.State) : Outcome :=
  match s with
  | Rule.Normal => Throw this
  | Rule.Reject => Ret false
  | Rule.Accept => Ret true
  end.

(** On the loop states described by [I], an iteration of the alternative
    returns and, whenever it accepts, has strictly advanced the cursor without
    passing the end; short of the end the new state is again in [I]. *)
Definition advances_under (I : World -> Prop) (r : RuleId) (child : Node) : Prop :=
  forall w, I w ->
    exists o w',
      child (with_rule r (Rule.setParsePosition (sourcePosition (pc w))) w) = Some (o, w')
      /\ (o = Ret true ->
            sourcePosition (pc w) < sourcePosition (pc w')
            /\ sourcePosition (pc w') <= sourceEndPosition (pc w')
            /\ sourceEndPosition (pc w') = sourceEndPosition (pc w)
            /\ (sourcePosition (pc w') <> sourceEndPosition (pc w') -> I w')).

(** How the grow loop is left from the loop state [w]: the alternative
    returns [false], or returns [true] with the cursor at the end of the
    input, or throws. *)
Definition last_iteration (r : RuleId) (child : Node) (w : World)
    (o : Outcome) (w' : World) : Prop :=
  let res := child (with_rule r (Rule.setParsePosition (sourcePosition (pc w))) w) in
  (res = Some (Ret false, w') /\ o = Ret true)
  \/ (res = Some (Ret true, w')
      /\ sourcePosition (pc w') = sourceEndPosition (pc w') /\ o = Ret true)
  \/ (exists x, res = Some (Throw x, w') /\ o = Throw x).

(** A node that, when it rejects, has at most added matches after those
    present at its entry. *)
Definition keeps_matches (c : Node) : Prop :=
  forall w w', c w = Some (Ret false, w') ->
    m_matches (pc w) `prefix_of` m_matches (pc w').

(** A node that, whatever its outcome, has at most added matches after those
    present at its entry. *)
Definition grows_matches (c : Node) : Prop :=
  forall w o w', c w = Some (o, w') ->
    m_matches (pc w) `prefix_of` m_matches (pc w').

(** Every alternative is attempted with the cursor at [p] and the match list
    [ms] and rejects; the state after each is rolled back to the snapshot
    taken before it. *)
Inductive RejectsFrom (p : Position) (ms : list Match)
  : list Node -> World -> World -> Prop :=
  | RejectsFrom_nil w :
      sourcePosition (pc w) = p -> m_matches (pc w) = ms ->
      RejectsFrom p ms [] w w
  | RejectsFrom_cons child rest w w1 w' :
      sourcePosition (pc w) = p -> m_matches (pc w) = ms ->
      child w = Some (Ret false, w1) ->
      RejectsFrom p ms rest (with_pc (setState (state (pc w))) w1) w' ->
      RejectsFrom p ms (child :: rest) w w'.

(** An expression that leaves every rule's vector of entry positions as it
    found it. *)
Definition keeps_stacks (e : rule.expression) : Prop :=
  forall c res c' r, e c = Some (res, c') -> rule.stack r c' = rule.stack r c.

(** ** Concrete grammars *)

Module Examples.
Import Grammar.

(** [E = E | 'a']: the left-recursive alternative consumes nothing. *)
Definition stutter : Grammar.t := fun _ =>
  Choice [RuleReference 0; Terminal "a"%char].

(** [R = R | R]: left recursion without a base alternative. *)
Definition baseless : Grammar.t := fun _ =>
  Choice [RuleReference 0; RuleReference 0].

(** [A = B 'x' | 'a'] and [B = A 'y']. *)
Definition mutual : Grammar.t := fun r =>
  match r with
  | 0 => Choice [Sequence [RuleReference 1; Terminal "x"%char]; Terminal "a"%char]
  | _ => Sequence [RuleReference 0; Terminal "y"%char]
  end.

(** [E = (E '+' '1' | '1') == 7]. *)
Definition sum : Grammar.t := fun _ =>
  Tagged (Choice [Sequence [RuleReference 0; Terminal "+"%char; Terminal "1"%char];
                  Terminal "1"%char]) 7.

(** The fields of rule [r] after a parse. *)
Definition fields_after (r : RuleId) (res : Result) : option Rule.t :=
  (fun x => rules x.2 r) <$> res.

(** The alternative [E '+' '1'] of [E = E '+' '1' | '1']. *)
Definition plus_one : Node :=
  run sum 2 (Sequence [RuleReference 0; Terminal "+"; Terminal "1"]).

(** The loop state after the seed ['1'] of the input [1+1+1]. *)
Definition after_seed : World :=
  {| pc := {| m_input := String.list_ascii_of_string "1+1+1";
              m_position := 1; m_matches := [] |};
     rules := Rule.upd fresh 0 (Rule.Mk (Some 0) Rule.Accept) |}.

(** The loop state after the first iteration. *)
Definition after_first : World :=
  match plus_one (with_rule 0 (Rule.setParsePosition 1) after_seed) with
  | Some (_, w) => w
  | None => after_seed
  end.

End Examples.

(** Two parses of the same input with the same grammar objects, the second
    starting from the rule objects as the first left them. *)
Definition parse_twice (g : Grammar.t) (fuel : nat) (r : RuleId) (input : string)
  : option (Grammar.Report * Grammar.Report) :=
  match Grammar.parse g fuel r Grammar.fresh input with
  | None => None
  | Some first =>
      match Grammar.parse g fuel r (rules first.2) input with
      | None => None
      | Some second => Some (Grammar.report first, Grammar.report second)
      end
  end.

(** ** Building choices: [operator |] ([ChoiceParser.hpp], [Rule.hpp]) *)

Module ChoiceOperators.
Import Grammar.

(** [operator | (ParserNode<T1>, ParserNode<T2>)]: a choice of the two. *)
Definition or_node_node (node1 node2 : Expr) : Expr :=
  Choice [node1; node2].

(** [operator |] on two [ChoiceParser]s: [std::tuple_cat] of the children. *)
Definition or_choice_choice (children1 children2 : list Expr) : Expr :=
  Choice (children1 ++ children2).

(** [operator |] on a [ChoiceParser] and another node. *)
Definition or_choice_node (children1 : list Expr) (node2 : Expr) : Expr :=
  Choice (children1 ++ [node2]).

(** [operator |] on a node and a [ChoiceParser]. *)
Definition or_node_choice (node1 : Expr) (children2 : list Expr) : Expr :=
  Choice ([node1] ++ children2).

(** The call [node1 | node2]: the most specialised of the four overloads
    applies. *)
Definition operator_or (node1 node2 : Expr) : Expr :=
  match node1, node2 with
  | Choice children1, Choice children2 => or_choice_choice children1 children2
  | Choice children1, _ => or_choice_node children1 node2
  | _, Choice children2 => or_node_choice node1 children2
  | _, _ => or_node_node node1 node2
  end.

(** [Rule.hpp]: [rule1 | rule2], [rule | node] and [node | rule] wrap the
    rules in [RuleReference] and call the operator of the nodes. *)
Definition rule_or_rule (rule1 rule2 : RuleId) : Expr :=
  operator_or (RuleReference rule1) (RuleReference rule2).

Definition rule_or_node (rule : RuleId) (node : Expr) : Expr :=
  operator_or (RuleReference rule) node.

Definition node_or_rule (node : Expr) (rule : RuleId) : Expr :=
  operator_or node (RuleReference rule).

Definition is_choice (e : Expr) : bool :=
  match e with
  | Choice _ => true
  | _ => false
  end.

(** The alternatives a node contributes to a choice: [children()] of a
    [ChoiceParser], the node itself otherwise. *)
Definition alternatives (e : Expr) : list Expr :=
  match e with
  | Choice children => children
  | _ => [e]
  end.

(** No alternative of the node is itself a [ChoiceParser]. *)
Definition flat (e : Expr) : Prop :=
  Forall (fun c => is_choice c = false) (alternatives e).

End ChoiceOperators.

(** ** Further notions used in the statements *)

(** A node that never leaves the cursor before the place it found it. *)
Definition forward (c : Node) : Prop :=
  forall w o w', c w = Some (o, w') ->
    sourcePosition (pc w) <= sourcePosition (pc w').

(** The accepting verdicts of [rule.hpp]. *)
Definition accepting (r : rule.parse_result) : bool :=
  match r with
  | rule.accepted | rule.accepted_left_recursion => true
  | _ => false
  end.

(** An expression that hands back the left-recursion record it received,
    unless it found the record [inactive] and leaves it in the [reject]
    state. *)
Definition lr_disciplined (e : rule.expression) : Prop :=
  forall c res c', e c = Some (res, c') ->
    rule.left_recursion c' = rule.left_recursion c
    \/ (rule.lr_state (rule.left_recursion c) = rule.inactive
        /\ rule.lr_state (rule.left_recursion c') = rule.reject).

(** On the loop states described by [I], an iteration of the expression of
    [rule.hpp] returns and, whenever it accepts, has strictly advanced the
    cursor without passing the end; short of the end the new state is again
    in [I]. *)
Definition lr_advances_under (I : rule.parse_context -> Prop) (e : rule.expression)
  : Prop :=
  forall c, I c ->
    exists r c',
      e (rule.set_left_recursion
           (rule.MkLeftRecursion (rule.lr_state (rule.left_recursion c)) (rule.position c))
           c) = Some (r, c')
      /\ (accepting r = true ->
            rule.position c < rule.position c'
            /\ rule.position c' <= rule.end_position c'
            /\ rule.end_position c' = rule.end_position c
            /\ (rule.valid c' = true -> I c')).

(** What a left-recursive entry of [rule.hpp] returns, by the state of the
    context. *)
Definition left_recursive_result (c : rule.parse_context)
  : rule.parse_result * rule.parse_context :=
  match rule.lr_state (rule.left_recursion c) with
  | rule.inactive =>
      (rule.rejected_left_recursion,
       rule.set_left_recursion (rule.MkLeftRecursion rule.reject (rule.position c)) c)
  | rule.reject => (rule.rejected_left_recursion, c)
  | rule.accept => (rule.accepted, c)
  end.

(** ** Sums of ones *)

Module Arithmetic.
Import Grammar.

(** [E = E '+' '1' | '1']. *)
Definition additions : Grammar.t := fun _ =>
  Choice [Sequence [RuleReference 0; Terminal "+"%char; Terminal "1"%char];
          Terminal "1"%char].

(** The input [1+1+...+1] with [n] additions. *)
Fixpoint ones (n : nat) : list ascii :=
  match n with
  | O => ["1"%char]
  | S n' => "1"%char :: "+"%char :: ones n'
  end.

(** The machine state at the start of an input, all rules as constructed. *)
Definition at_start (input : list ascii) : World :=
  {| pc := {| m_input := input; m_position := 0; m_matches := [] |};
     rules := fresh |}.

(** The cursor moved by one. *)
Definition step (w : World) : World :=
  with_pc (fun p => {| m_input := m_input p;
                       m_position := S (m_position p);
                       m_matches := m_matches p |}) w.

(** The alternative [E '+' '1'], its reference to [E] run with budget [f]. *)
Definition alt (f : nat) : Node :=
  SequenceParser.operator_call
    [RuleCall.operator_call 0 (run additions f (additions 0));
     TerminalParser "+"; TerminalParser "1"].

(** An expression of [rule.hpp] that accepts any one element: it advances
    the cursor by one short of the end and rejects at the end. *)
Definition any_element : rule.expression := fun c =>
  if bool_decide (rule.position c < rule.end_position c)
  then Some (rule.accepted,
             rule.MkContext (S (rule.position c)) (rule.end_position c)
               (rule.positions c) (rule.left_recursion c))
  else Some (rule.rejected, c).

End Arithmetic.

(** ** Grammars whose signals cross a choice *)

Module Signals.
Import Grammar.

(** [E = E '+' F | '1'] and [F = F '*' '1']: [F] is left-recursive without
    a choice of its own. *)
Definition raising : Grammar.t := fun r =>
  match r with
  | 0 => Choice [Sequence [RuleReference 0; Terminal "+"%char; RuleReference 1];
                 Terminal "1"%char]
  | _ => Sequence [RuleReference 1; Terminal "*"%char; Terminal "1"%char]
  end.

(** [A = A | B] and [B = A]. *)
Definition tangled : Grammar.t := fun r =>
  match r with
  | 0 => Choice [RuleReference 0; RuleReference 1]
  | _ => RuleReference 0
  end.

(** The machine state inside the body of rule 0 entered at the start of
    [input]. *)
Definition in_body (input : string) : World :=
  {| pc := start input;
     rules := Rule.upd fresh 0 (Rule.Mk (Some 0) Rule.Normal) |}.

(** The same with rule 1 entered at the start as well. *)
Definition in_bodies (input : string) : World :=
  {| pc := start input;
     rules := Rule.upd (Rule.upd fresh 1 (Rule.Mk (Some 0) Rule.Normal))
                0 (Rule.Mk (Some 0) Rule.Normal) |}.

(** The alternative [E '+' F] of [raising]. *)
Definition plus_F : Node :=
  run raising 4 (Sequence [RuleReference 0; Terminal "+"%char; RuleReference 1]).

(** The loop state of [E = E '+' '1' | '1'] on [1+1+1] once the choice has
    caught the exception, found the seed ['1'] and set the [Accept] state. *)
Definition seeded : World :=
  match ChoiceParser.parseTuple 0 [TerminalParser "1"%char]
          (with_rule 0 Rule.setRejectState (in_body "1+1+1")) with
  | Some (_, w3) => with_rule 0 Rule.setAcceptState w3
  | None => in_body "1+1+1"
  end.

(** The loop state after the first grow iteration. *)
Definition grown_once : World :=
  match Examples.plus_one
          (with_rule 0 (Rule.setParsePosition (sourcePosition (pc seeded))) seeded) with
  | Some (_, w) => w
  | None => seeded
  end.

End Signals.


(** * Properties *)

(** ** Reading a rule object after a write *)

Lemma rules_with_rule_same (r : RuleId) (f : Rule.t -> Rule.t) (w : World) :
  rules (with_rule r f w) r = f (rules w r).
Proof. unfold with_rule, Rule.upd. simpl. by rewrite decide_True. Qed.

Lemma rules_with_rule_other (r r' : RuleId) (f : Rule.t -> Rule.t) (w : World) :
  r' <> r -> rules (with_rule r f w) r' = rules w r'.
Proof. intros Hne. unfold with_rule, Rule.upd. simpl. by rewrite decide_False. Qed.

Lemma pc_with_rule (r : RuleId) (f : Rule.t -> Rule.t) (w : World) :
  pc (with_rule r f w) = pc w.
Proof. done. Qed.

(** ** Budget independence

    Raising the loop budget, or replacing children by extensions, never
    changes a result already obtained. *)

Lemma extends_refl c : extends c c.
Proof. by intros w res. Qed.

Lemma growLoop_extends n m r c c' w res :
  extends c c' -> n <= m ->
  ChoiceParser.growLoop n r c w = Some res ->
  ChoiceParser.growLoop m r c' w = Some res.
Proof.
  intros Hext. revert m w.
  induction n as [|n IH]; intros m w Hle; [done|].
  destruct m as [|m]; [lia|]. simpl.
  set (w1 := with_rule r _ w).
  destruct (c w1) as [[o w2]|] eqn:Ec; [|done].
  rewrite (Hext _ _ Ec).
  destruct o as [[|]|x]; try done.
  case_bool_decide; [done|]. apply IH. lia.
Qed.

Lemma parseTuple_extends n m cs cs' w res :
  Forall2 extends cs cs' -> n <= m ->
  ChoiceParser.parseTuple n cs w = Some res ->
  ChoiceParser.parseTuple m cs' w = Some res.
Proof.
  intros Hcs Hle. revert w res.
  induction Hcs as [|c c' cs cs' Hc Hcs IH]; intros w res; [done|].
  simpl.
  destruct (c w) as [[o w1]|] eqn:Ec; [|done].
  rewrite (Hc _ _ Ec).
  destruct o as [[|]|x]; [done|apply IH|].
  destruct (ChoiceParser.parseTuple n cs _) as [[o3 w3]|] eqn:Eseed; [|done].
  rewrite (IH _ _ Eseed).
  destruct o3 as [[|]|x']; try done.
  by apply growLoop_extends.
Qed.

Lemma Forall2_extends_refl cs : Forall2 extends cs cs.
Proof. induction cs; constructor; auto using extends_refl. Qed.

Lemma growLoop_mono n m r c w res :
  n <= m ->
  ChoiceParser.growLoop n r c w = Some res ->
  ChoiceParser.growLoop m r c w = Some res.
Proof. apply growLoop_extends, extends_refl. Qed.

Lemma parseTuple_mono n m cs w res :
  n <= m ->
  ChoiceParser.parseTuple n cs w = Some res ->
  ChoiceParser.parseTuple m cs w = Some res.
Proof. apply parseTuple_extends, Forall2_extends_refl. Qed.

(** The grow loop leaves through [break] with [true], or by an exception of
    the alternative; it never yields [false]. *)
Lemma growLoop_outcome n r c w o w' :
  ChoiceParser.growLoop n r c w = Some (o, w') ->
  o = Ret true \/ exists x, o = Throw x.
Proof.
  revert w. induction n as [|n IH]; intros w; [done|]. simpl.
  set (w1 := with_rule r _ w).
  destruct (c w1) as [[[[|]|x] w2]|]; try done.
  - case_bool_decide; [|by apply IH]. intros [= <- <-]. by left.
  - intros [= <- <-]. by left.
  - intros [= <- <-]. right. by exists x.
Qed.

(** ** Re-entry of a rule at its recorded position ([Rule.hpp]) *)

(** The first branch of [Rule::operator()]. *)
Lemma RuleCall_reentry (this : RuleId) (m_parser : Node) (w : World) :
  Rule.at_position (rules w this) (sourcePosition (pc w)) = true ->
  RuleCall.operator_call this m_parser w
  = Some (reentry_outcome this (Rule.m_state (rules w this)), w).
Proof.
  intros Hpos. unfold RuleCall.operator_call. rewrite Hpos.
  by destruct (Rule.m_state (rules w this)).
Qed.

(** The second branch of [Rule::operator()]: the fields are saved, set to
    (cursor, [Normal]) for the body, and written back after a normal return
    of the body; an exception of the body skips the write-back. *)
Lemma RuleCall_first_entry (this : RuleId) (m_parser : Node) (w : World) :
  Rule.at_position (rules w this) (sourcePosition (pc w)) = false ->
  RuleCall.operator_call this m_parser w
  = match m_parser (with_rule this (fun _ =>
              Rule.Mk (Some (sourcePosition (pc w))) Rule.Normal) w) with
    | None => None
    | Some (Throw x, w2) => Some (Throw x, w2)
    | Some (Ret result, w2) =>
        Some (Ret result, with_rule this (fun _ => rules w this) w2)
    end.
Proof.
  intros Hpos. unfold RuleCall.operator_call. rewrite Hpos.
  by destruct (rules w this).
Qed.

(** C1.  When a rule is invoked while its recorded parse position equals the
    cursor (a second entry without progress), the body is not consulted and
    the outcome depends on the rule's state alone: [Normal] throws the
    left-recursion exception for this rule, [Reject] returns [false],
    [Accept] returns [true]; the cursor, the matches and all rule objects are
    left as they were. *)
Theorem Rule_reentry_decided_by_state (this : RuleId) (m_parser : Node) (w : World) :
  Rule.m_parsePosition (rules w this) = Some (sourcePosition (pc w)) ->
  RuleCall.operator_call this m_parser w
  = Some (reentry_outcome this (Rule.m_state (rules w this)), w).
Proof.
  intros Hpos. apply RuleCall_reentry. unfold Rule.at_position.
  rewrite Hpos. by apply bool_decide_eq_true_2.
Qed.

(** ** Ordered choice: commitment *)

(** C6.  If the first alternative [A] of [A | B] succeeds, the choice returns
    exactly what [A] returned (verdict, context, rule objects), whatever [B]
    is: [B] is not invoked. *)
Theorem ChoiceParser_commits_to_first (fuel : nat) (A B : Node) (w w' : World) :
  A w = Some (Ret true, w') ->
  ChoiceParser.operator_call fuel [A; B] w = A w.
Proof. intros HA. unfold ChoiceParser.operator_call. simpl. by rewrite HA. Qed.

(** ** Ordered choice: the seed and grow protocol *)

(** The catch block of [parseTuple]. *)
Lemma parseTuple_catch (fuel : nat) (child : Node) (rest : list Node)
    (w w1 : World) (r : RuleId) :
  child w = Some (Throw r, w1) ->
  ChoiceParser.parseTuple fuel (child :: rest) w
  = match ChoiceParser.parseTuple fuel rest (with_rule r Rule.setRejectState w1) with
    | None => None
    | Some (Throw r', w3) => Some (Throw r', w3)
    | Some (Ret false, w3) => Some (Throw r, w3)
    | Some (Ret true, w3) =>
        ChoiceParser.growLoop fuel r child (with_rule r Rule.setAcceptState w3)
    end.
Proof. intros Hthrow. simpl. by rewrite Hthrow. Qed.

(** One iteration decides how the grow loop goes on: it ends when the
    alternative returns [false] or throws, or returns [true] with the cursor
    at the end of the input; otherwise it runs again from the new state. *)
Lemma growLoop_step (n : nat) (r : RuleId) (child : Node) (w : World) :
  ChoiceParser.growLoop (S n) r child w
  = match child (with_rule r (Rule.setParsePosition (sourcePosition (pc w))) w) with
    | None => None
    | Some (Throw x, w2) => Some (Throw x, w2)
    | Some (Ret false, w2) => Some (Ret true, w2)
    | Some (Ret true, w2) =>
        if bool_decide (sourcePosition (pc w2) = sourceEndPosition (pc w2))
        then Some (Ret true, w2)
        else ChoiceParser.growLoop n r child w2
    end.
Proof. done. Qed.

(** The grow loop returns when every accepting iteration advances. *)
Lemma growLoop_returns (I : World -> Prop) (r : RuleId) (child : Node) :
  advances_under I r child ->
  forall d w, I w ->
    sourceEndPosition (pc w) - sourcePosition (pc w) <= d ->
    exists o w' w_last,
      ChoiceParser.growLoop (S d) r child w = Some (o, w')
      /\ I w_last /\ last_iteration r child w_last o w'.
Proof.
  intros Hadv. induction d as [|d IH]; intros w HI Hd; rewrite growLoop_step;
    destruct (Hadv w HI) as (o & w2 & Hc & Hprog); rewrite Hc;
    (destruct o as [[|]|x];
      [|exists (Ret true), w2, w; unfold last_iteration; by eauto
       |exists (Throw x), w2, w; unfold last_iteration; by eauto 10]);
    (destruct Hprog as (Hlt & Hle & Hend & Hnext); [done|]);
    (case_bool_decide as Hstop;
      [exists (Ret true), w2, w; unfold last_iteration; by eauto 10|]).
  - lia.
  - apply IH; [by apply Hnext|lia].
Qed.

(** C2, as the code has it.  When the alternative [child] throws the
    left-recursion exception of rule [r], the choice puts [r] in the
    [Reject] state and tries the remaining alternatives in order, from the
    state at the throw.  If they all reject, the exception of [r] is thrown
    again; if one of them throws, that exception goes up instead.  If one
    succeeds, [r] is put in the [Accept] state and the grow loop runs: when
    every accepting iteration advances the cursor, the choice returns, with
    [true] if the loop ended on a rejected iteration or at the end of the
    input, and with the exception of the alternative if it threw one. *)
Theorem ChoiceParser_seed_and_grow
    (fuel : nat) (child : Node) (rest : list Node) (w w1 : World) (r : RuleId) :
  child w = Some (Throw r, w1) ->
  let w2 := with_rule r Rule.setRejectState w1 in
  Rule.m_state (rules w2 r) = Rule.Reject
  /\ (forall w3, ChoiceParser.parseTuple fuel rest w2 = Some (Ret false, w3) ->
        ChoiceParser.parseTuple fuel (child :: rest) w = Some (Throw r, w3))
  /\ (forall r' w3, ChoiceParser.parseTuple fuel rest w2 = Some (Throw r', w3) ->
        ChoiceParser.parseTuple fuel (child :: rest) w = Some (Throw r', w3))
  /\ (forall w3, ChoiceParser.parseTuple fuel rest w2 = Some (Ret true, w3) ->
        let w4 := with_rule r Rule.setAcceptState w3 in
        Rule.m_state (rules w4 r) = Rule.Accept
        /\ ChoiceParser.parseTuple fuel (child :: rest) w
           = ChoiceParser.growLoop fuel r child w4
        /\ forall I : World -> Prop,
             advances_under I r child -> I w4 ->
             exists o w' w_last,
               ChoiceParser.parseTuple
                 (Nat.max fuel (S (sourceEndPosition (pc w4) - sourcePosition (pc w4))))
                 (child :: rest) w = Some (o, w')
               /\ I w_last
               /\ last_iteration r child w_last o w').
Proof.
  intros Hthrow w2. split; [|split; [|split]].
  - unfold w2. by rewrite rules_with_rule_same.
  - intros w3 Hseed. rewrite (parseTuple_catch _ _ _ _ _ _ Hthrow). fold w2.
    by rewrite Hseed.
  - intros r' w3 Hseed. rewrite (parseTuple_catch _ _ _ _ _ _ Hthrow). fold w2.
    by rewrite Hseed.
  - intros w3 Hseed w4.
    assert (Heq : forall k, fuel <= k ->
              ChoiceParser.parseTuple k (child :: rest) w
              = ChoiceParser.growLoop k r child w4).
    { intros k Hk. rewrite (parseTuple_catch _ _ _ _ _ _ Hthrow). fold w2.
      by rewrite (parseTuple_mono _ _ _ _ _ Hk Hseed). }
    split; [|split].
    + unfold w4. by rewrite rules_with_rule_same.
    + by apply Heq.
    + intros I Hadv HI. rewrite Heq by lia.
      destruct (growLoop_returns I r child Hadv _ w4 HI (le_n _))
        as (o & w' & w_last & Hgrow & Hlast & Hexit).
      exists o, w', w_last. split; [|done].
      eapply growLoop_mono; [|done]. lia.
Qed.

(** C3, as the code has it.  The grow loop has two exits: the alternative
    rejects, or it accepts and the cursor is at the end of the input (an
    exception of the alternative leaves it as well).  There is no test for
    an iteration that accepts without advancing.  When every accepting
    iteration advances the cursor, the loop returns within
    [end - cursor + 1] iterations, through one of these exits. *)
Theorem growLoop_terminates_when_advancing
    (I : World -> Prop) (r : RuleId) (child : Node) (w : World) :
  advances_under I r child ->
  I w ->
  exists o w' w_last,
    ChoiceParser.growLoop
      (S (sourceEndPosition (pc w) - sourcePosition (pc w))) r child w = Some (o, w')
    /\ I w_last
    /\ last_iteration r child w_last o w'.
Proof.
  intros Hadv.
  assert (H : forall d w0, I w0 ->
            sourceEndPosition (pc w0) - sourcePosition (pc w0) <= d ->
            exists o w' w_last,
              ChoiceParser.growLoop (S d) r child w0 = Some (o, w')
              /\ I w_last /\ last_iteration r child w_last o w').
  { induction d as [|d IH]; intros w0 HI Hd; rewrite growLoop_step;
      destruct (Hadv w0 HI) as (o & w2 & Hc & Hprog); rewrite Hc;
      (destruct o as [[|]|x];
        [|exists (Ret true), w2, w0; unfold last_iteration; by eauto
         |exists (Throw x), w2, w0; unfold last_iteration; by eauto 10]);
      (destruct Hprog as (Hlt & Hle & Hend & Hnext); [done|]);
      (case_bool_decide as Hstop;
        [exists (Ret true), w2, w0; unfold last_iteration; by eauto 10|]).
    - lia.
    - apply IH; [by apply Hnext|lia]. }
  intros HI. by apply H.
Qed.

(** ** Budget independence of whole grammars *)

Lemma RuleCall_extends this c c' :
  extends c c' ->
  extends (RuleCall.operator_call this c) (RuleCall.operator_call this c').
Proof.
  intros Hext w res. unfold RuleCall.operator_call.
  destruct (Rule.at_position _ _); [done|].
  set (w1 := with_rule this _ w).
  destruct (c w1) as [[o w2]|] eqn:Ec; [|done].
  by rewrite (Hext _ _ Ec).
Qed.

Lemma SequenceParser_parseTuple_extends cs cs' w res :
  Forall2 extends cs cs' ->
  SequenceParser.parseTuple cs w = Some res ->
  SequenceParser.parseTuple cs' w = Some res.
Proof.
  intros Hcs. revert w.
  induction Hcs as [|c c' cs cs' Hc Hcs IH]; intros w; [done|]. simpl.
  destruct (c w) as [[o w1]|] eqn:Ec; [|done].
  rewrite (Hc _ _ Ec). destruct o as [[|]|x]; auto.
Qed.

Lemma SequenceParser_extends cs cs' :
  Forall2 extends cs cs' ->
  extends (SequenceParser.operator_call cs) (SequenceParser.operator_call cs').
Proof.
  intros Hcs w res. unfold SequenceParser.operator_call.
  destruct (SequenceParser.parseTuple cs w) as [res1|] eqn:Eseq; [|done].
  by rewrite (SequenceParser_parseTuple_extends _ _ _ _ Hcs Eseq).
Qed.

Lemma MatchParser_extends c c' matchId :
  extends c c' ->
  extends (MatchParser.operator_call c matchId) (MatchParser.operator_call c' matchId).
Proof.
  intros Hext w res. unfold MatchParser.operator_call.
  destruct (c w) as [[o w1]|] eqn:Ec; [|done].
  by rewrite (Hext _ _ Ec).
Qed.

Lemma ChoiceParser_extends n m cs cs' :
  Forall2 extends cs cs' -> n <= m ->
  extends (ChoiceParser.operator_call n cs) (ChoiceParser.operator_call m cs').
Proof. intros Hcs Hle w res. by apply parseTuple_extends. Qed.

Lemma Forall2_extends_map (f f' : Grammar.Expr -> Node) (l : list Grammar.Expr) :
  (forall e, extends (f e) (f' e)) ->
  Forall2 extends (map f l) (map f' l).
Proof. intros H. induction l; constructor; auto. Qed.

(** More budget never changes the result of an expression. *)
Lemma run_extends (g : Grammar.t) (n m : nat) (e : Grammar.Expr) :
  n <= m -> extends (Grammar.run g n e) (Grammar.run g m e).
Proof.
  revert m e. induction n as [|n IH]; intros m e Hle; [by intros w res|].
  destruct m as [|m]; [lia|].
  assert (Hnm : n <= m) by lia.
  destruct e as [c| |children|children|child matchId|r]; simpl.
  - apply extends_refl.
  - apply extends_refl.
  - apply SequenceParser_extends, Forall2_extends_map. auto.
  - apply ChoiceParser_extends; [|done]. apply Forall2_extends_map. auto.
  - apply MatchParser_extends. auto.
  - apply RuleCall_extends. auto.
Qed.

Lemma parse_mono (g : Grammar.t) (n m : nat) (r : RuleId) (h : Rule.heap)
    (input : string) (res : Outcome * World) :
  n <= m ->
  Grammar.parse g n r h input = Some res ->
  Grammar.parse g m r h input = Some res.
Proof. intros Hle. by apply run_extends. Qed.

(** ** The grow loop on an alternative that does not advance *)

Section Stutter.
Import Grammar Examples.

(** In the [Accept] state at the cursor, a reference to the rule returns
    [true] at once, so the loop state after an iteration is the loop state
    before it. *)
Lemma stutter_loop_never_returns (k n : nat) (w : World) :
  Rule.m_state (rules w 0) = Rule.Accept ->
  sourcePosition (pc w) <> sourceEndPosition (pc w) ->
  ChoiceParser.growLoop k 0 (run stutter n (RuleReference 0)) w = None.
Proof.
  revert w. induction k as [|k IH]; intros w Hacc Hend; [done|].
  rewrite growLoop_step.
  destruct n as [|n]; [done|]. simpl run.
  rewrite RuleCall_reentry.
  - rewrite rules_with_rule_same, pc_with_rule. simpl. rewrite Hacc. simpl.
    rewrite bool_decide_eq_false_2 by done.
    apply (IH (with_rule 0 _ w)); [|done].
    by rewrite rules_with_rule_same.
  - rewrite rules_with_rule_same, pc_with_rule. unfold Rule.at_position. simpl.
    by apply bool_decide_eq_true_2.
Qed.

(** The parse of [ab] with [E = E | 'a'] reaches the grow loop after the
    seed ['a'] and never leaves it. *)
Lemma stutter_parse_never_returns (fuel : nat) :
  parse stutter fuel 0 fresh "ab" = None.
Proof.
  destruct fuel as [|[|[|k]]]; try done.
  unfold parse.
  set (w0 := {| pc := start "ab"; rules := fresh |}).
  change (run stutter (S (S (S k))) (RuleReference 0) w0)
    with (RuleCall.operator_call 0
            (ChoiceParser.parseTuple (S k)
               [run stutter (S k) (RuleReference 0); TerminalParser "a"]) w0).
  rewrite RuleCall_first_entry by done.
  set (w1 := with_rule 0 _ w0).
  rewrite (parseTuple_catch _ _ _ w1 w1 0) by done.
  set (w2 := with_rule 0 Rule.setRejectState w1).
  change (ChoiceParser.parseTuple (S k) [TerminalParser "a"] w2)
    with (Some (Ret true,
                with_pc (fun p => {| m_input := m_input p;
                                     m_position := S (m_position p);
                                     m_matches := m_matches p |}) w2)).
  cbv iota beta.
  by rewrite stutter_loop_never_returns.
Qed.

End Stutter.

(** C3, counterexample.  With [E = E | 'a'] on the input [ab], the seed ['a']
    leaves the cursor at 1; each grow iteration invokes [E] in the [Accept]
    state at the cursor, which accepts with zero advance short of the end of
    the input, and the loop never returns, nor does the parse. *)
Lemma growLoop_zero_advance_never_returns :
  let child := Grammar.run Examples.stutter 1 (Grammar.RuleReference 0) in
  let w := {| pc := {| m_input := String.list_ascii_of_string "ab";
                       m_position := 1; m_matches := [] |};
              rules := Rule.upd Grammar.fresh 0 (Rule.Mk (Some 0) Rule.Accept) |} in
  let w1 := with_rule 0 (Rule.setParsePosition (sourcePosition (pc w))) w in
  child w1 = Some (Ret true, w1)
  /\ sourcePosition (pc w1) = sourcePosition (pc w)
  /\ sourcePosition (pc w1) < sourceEndPosition (pc w1)
  /\ (forall fuel, ChoiceParser.growLoop fuel 0 child w = None)
  /\ (forall fuel, Grammar.parse Examples.stutter fuel 0 Grammar.fresh "ab" = None).
Proof.
  intros child w w1. split; [done|]. split; [done|]. split; [vm_compute; lia|]. split.
  - intros fuel. by apply stutter_loop_never_returns.
  - apply stutter_parse_never_returns.
Qed.

(** C2, counterexample.  A seed is found and yet the choice does not return
    success; no later alternative succeeds and yet another signal goes up.
    - [E = E '+' F | '1'], [F = F '*' '1'] on [1+1]: the first alternative
      throws for [E], ['1'] gives the seed, and in the grow loop [F] throws
      for itself; the choice throws for [F].
    - [E = E | 'a'] on [ab]: ['a'] gives the seed and the grow loop never
      ends, whatever the budget.
    - [A = A | B], [B = A], both entered at 0: the first alternative throws
      for [A], the remaining one throws for [B], and the choice throws for
      [B], not for [A]. *)
Lemma seed_found_without_success :
  (Signals.plus_F (Signals.in_body "1+1") = Some (Throw 0, Signals.in_body "1+1")
   /\ fst <$> ChoiceParser.parseTuple 5 [TerminalParser "1"]
                (with_rule 0 Rule.setRejectState (Signals.in_body "1+1"))
      = Some (Ret true)
   /\ fst <$> ChoiceParser.parseTuple 5 [Signals.plus_F; TerminalParser "1"]
                (Signals.in_body "1+1")
      = Some (Throw 1))
  /\ (let child := Grammar.run Examples.stutter 1 (Grammar.RuleReference 0) in
      child (Signals.in_body "ab") = Some (Throw 0, Signals.in_body "ab")
      /\ fst <$> ChoiceParser.parseTuple 0 [TerminalParser "a"]
                   (with_rule 0 Rule.setRejectState (Signals.in_body "ab"))
         = Some (Ret true)
      /\ forall fuel,
           ChoiceParser.parseTuple fuel [child; TerminalParser "a"] (Signals.in_body "ab")
           = None)
  /\ (let A := Grammar.run Signals.tangled 1 (Grammar.RuleReference 0) in
      let B := Grammar.run Signals.tangled 1 (Grammar.RuleReference 1) in
      fst <$> A (Signals.in_bodies "y") = Some (Throw 0)
      /\ fst <$> ChoiceParser.parseTuple 0 [B]
                   (with_rule 0 Rule.setRejectState (Signals.in_bodies "y"))
         = Some (Throw 1)
      /\ fst <$> ChoiceParser.parseTuple 0 [A; B] (Signals.in_bodies "y")
         = Some (Throw 1)).
Proof.
  split; [by vm_compute|]. split; [|by vm_compute].
  intros child. split; [done|]. split; [done|].
  intros fuel.
  rewrite (parseTuple_catch _ _ _ _ (Signals.in_body "ab") 0) by done.
  set (w2 := with_rule 0 Rule.setRejectState (Signals.in_body "ab")).
  change (ChoiceParser.parseTuple fuel [TerminalParser "a"] w2)
    with (Some (Ret true,
                with_pc (fun p => {| m_input := m_input p;
                                     m_position := S (m_position p);
                                     m_matches := m_matches p |}) w2)).
  cbv iota beta. unfold child.
  by rewrite stutter_loop_never_returns.
Qed.

(** ** Saving and restoring the fields of a rule object *)

(** A body that returns normally: the fields of the rule are what they were
    before the call, and the other rule objects are as the body left them. *)
Lemma RuleCall_restores_on_return (this : RuleId) (m_parser : Node)
    (w w' : World) (b : bool) :
  Rule.at_position (rules w this) (sourcePosition (pc w)) = false ->
  RuleCall.operator_call this m_parser w = Some (Ret b, w') ->
  rules w' this = rules w this.
Proof.
  intros Hpos. rewrite RuleCall_first_entry by done.
  destruct (m_parser _) as [[[b'|x] w2]|]; [|done..].
  intros [= <- <-]. by rewrite rules_with_rule_same.
Qed.

(** C4, at a failing input.  [R = R | R] on the input [a]: the inner
    reference throws, the choice finds no seed and throws again, and the
    exception leaves [Rule::operator()] past the restoring assignments.  The
    rule was constructed with no parse position and state [Normal]; after
    the call it holds position 0 and state [Reject]. *)
Lemma Rule_fields_not_restored_on_throw :
  Grammar.fresh 0 = Rule.Mk None Rule.Normal
  /\ Grammar.report <$> Grammar.parse Examples.baseless 3 0 Grammar.fresh "a"
     = Some (Grammar.MkReport (Throw 0) 0 [])
  /\ Examples.fields_after 0 (Grammar.parse Examples.baseless 3 0 Grammar.fresh "a")
     = Some (Rule.Mk (Some 0) Rule.Reject).
Proof. vm_compute. repeat split. Qed.

(** ** Where the recursion state lives *)

(** C7, counterexample.  In [Rule.hpp] the state is held by the rule object
    and parsing writes it: a rule constructed with no parse position, invoked
    at the start of the input, runs its body with the position recorded in
    the object, so that a reference to the same rule that would return
    [true] on the object as constructed throws instead; the object keeps the
    recorded position afterwards. *)
Lemma Rule_object_written_by_parse :
  let w0 := {| pc := Grammar.start "a"; rules := Grammar.fresh |} in
  let inner := RuleCall.operator_call 0 EmptyParser in
  Rule.m_parsePosition (rules w0 0) = None
  /\ fst <$> inner w0 = Some (Ret true)
  /\ fst <$> RuleCall.operator_call 0 inner w0 = Some (Throw 0)
  /\ (fun res => Rule.m_parsePosition (rules res.2 0)) <$> RuleCall.operator_call 0 inner w0
     = Some (Some 0).
Proof. vm_compute. repeat split. Qed.

(** C7, as the code has it.  In [Rule.hpp] a first entry at a position runs
    the body on a machine state in which this rule object holds the cursor
    and [Normal], every other rule object and the context being untouched,
    and a normal return writes the saved fields back.  In [rule.hpp],
    [activate] writes the context only: it appends the position to the
    vector stored under this rule's key and leaves the other keys, the
    cursor and the left-recursion record (one for the whole context, not
    keyed by rule) as they were. *)
Theorem recursion_state_location (this : RuleId) :
  (forall (m_parser : Node) (w : World),
     Rule.at_position (rules w this) (sourcePosition (pc w)) = false ->
     let w1 := with_rule this (fun _ =>
                 Rule.Mk (Some (sourcePosition (pc w))) Rule.Normal) w in
     rules w1 this = Rule.Mk (Some (sourcePosition (pc w))) Rule.Normal
     /\ (forall r, r <> this -> rules w1 r = rules w r)
     /\ pc w1 = pc w
     /\ forall b w2, m_parser w1 = Some (Ret b, w2) ->
          exists w', RuleCall.operator_call this m_parser w = Some (Ret b, w')
            /\ rules w' this = rules w this
            /\ (forall r, r <> this -> rules w' r = rules w2 r)
            /\ pc w' = pc w2)
  /\ (forall (c : rule.parse_context),
        let c1 := (rule.activate this c).2 in
        rule.positions c1 !! this = Some (rule.stack this c ++ [rule.position c])
        /\ (forall r, r <> this -> rule.positions c1 !! r = rule.positions c !! r)
        /\ rule.position c1 = rule.position c
        /\ rule.end_position c1 = rule.end_position c
        /\ rule.left_recursion c1 = rule.left_recursion c).
Proof.
  split.
  - intros m_parser w Hpos w1. repeat split.
    + unfold w1. by rewrite rules_with_rule_same.
    + intros r Hr. unfold w1. by rewrite rules_with_rule_other.
    + intros b w2 Hbody. rewrite RuleCall_first_entry by done. fold w1.
      rewrite Hbody. eexists. split; [done|]. repeat split.
      * by rewrite rules_with_rule_same.
      * intros r Hr. by rewrite rules_with_rule_other.
  - intros c c1. unfold c1, rule.activate. simpl. repeat split.
    + by rewrite lookup_insert_eq.
    + intros r Hr. by rewrite lookup_insert_ne.
Qed.

(** ** Determinism *)

(** C8, at a failing input.  [A = B 'x' | 'a'], [B = A 'y'], input [ayx],
    parsed twice with the same rule objects.  The first parse accepts with
    the cursor at 3; the exception of [A] has left [B] through
    [Rule::operator()] past the restoring assignments, with position 0
    recorded, so in the second parse [B] throws at once, the choice grows on
    [B] instead of [A], and the parse accepts with the cursor at 1. *)
Lemma second_parse_differs :
  parse_twice Examples.mutual 10 0 "ayx"
  = Some (Grammar.MkReport (Ret true) 3 [], Grammar.MkReport (Ret true) 1 []).
Proof. by vm_compute. Qed.

(** The same two reports come out under every larger budget. *)
Lemma mutual_parsed_twice :
  parse_twice Examples.mutual 10 0 "ayx"
  = Some (Grammar.MkReport (Ret true) 3 [], Grammar.MkReport (Ret true) 1 []).
Proof. by vm_compute. Qed.

Lemma mutual_parsed_twice_any_budget (fuel : nat) :
  10 <= fuel ->
  parse_twice Examples.mutual fuel 0 "ayx"
  = Some (Grammar.MkReport (Ret true) 3 [], Grammar.MkReport (Ret true) 1 []).
Proof.
  intros Hle. pose proof mutual_parsed_twice as H. unfold parse_twice in *.
  destruct (Grammar.parse Examples.mutual 10 0 Grammar.fresh "ayx")
    as [first|] eqn:E1; [|done].
  rewrite (parse_mono _ _ _ _ _ _ _ Hle E1).
  destruct (Grammar.parse Examples.mutual 10 0 (rules first.2) "ayx")
    as [second|] eqn:E2; [|done].
  by rewrite (parse_mono _ _ _ _ _ _ _ Hle E2).
Qed.

(** Two invocations that start from the same state of the rule objects and
    both return give the same result, whatever their budgets. *)
Theorem parse_deterministic (g : Grammar.t) (r : RuleId) (h : Rule.heap)
    (input : string) (n m : nat) (res1 res2 : Outcome * World) :
  Grammar.parse g n r h input = Some res1 ->
  Grammar.parse g m r h input = Some res2 ->
  res1 = res2.
Proof.
  intros H1 H2.
  apply (parse_mono _ _ (Nat.max n m)) in H1; [|lia].
  apply (parse_mono _ _ (Nat.max n m)) in H2; [|lia].
  congruence.
Qed.

(** ** Ordered choice: rejection and rollback *)

Lemma setState_rolls_back (w w1 : World) :
  m_matches (pc w) `prefix_of` m_matches (pc w1) ->
  let w2 := with_pc (setState (state (pc w))) w1 in
  sourcePosition (pc w2) = sourcePosition (pc w)
  /\ m_matches (pc w2) = m_matches (pc w).
Proof.
  intros [k Hk]. simpl. split; [done|].
  unfold resize_subnodes. rewrite Hk. apply take_app_length.
Qed.

Lemma RejectsFrom_final p ms cs w w' :
  RejectsFrom p ms cs w w' ->
  sourcePosition (pc w') = p /\ m_matches (pc w') = ms.
Proof. induction 1; auto. Qed.

Lemma parseTuple_reject_inv fuel child rest w w' :
  ChoiceParser.parseTuple fuel (child :: rest) w = Some (Ret false, w') ->
  exists w1, child w = Some (Ret false, w1)
    /\ ChoiceParser.parseTuple fuel rest (with_pc (setState (state (pc w))) w1)
       = Some (Ret false, w').
Proof.
  simpl. destruct (child w) as [[[[|]|r] w1]|]; try done.
  - intros H. by exists w1.
  - destruct (ChoiceParser.parseTuple fuel rest _) as [[[[|]|r'] w3]|]; try done.
    intros Hgrow. by destruct (growLoop_outcome _ _ _ _ _ _ Hgrow) as [?|[? ?]].
Qed.

(** C5.  A choice whose alternatives keep the matches present at their entry
    returns [false] exactly when every alternative, attempted in order with
    the caller's cursor and match list, returns [false], each failed attempt
    being rolled back to the snapshot taken before it; the cursor and the
    match list after the rejected choice are those before it. *)
Theorem ChoiceParser_reject_rolls_back (fuel : nat) (children : list Node) (w : World) :
  Forall keeps_matches children ->
  (forall w', ChoiceParser.parseTuple fuel children w = Some (Ret false, w')
     <-> RejectsFrom (sourcePosition (pc w)) (m_matches (pc w)) children w w')
  /\ (forall w', ChoiceParser.parseTuple fuel children w = Some (Ret false, w') ->
        sourcePosition (pc w') = sourcePosition (pc w)
        /\ m_matches (pc w') = m_matches (pc w)).
Proof.
  intros Hkeep.
  assert (Hiff : forall w', ChoiceParser.parseTuple fuel children w = Some (Ret false, w')
     <-> RejectsFrom (sourcePosition (pc w)) (m_matches (pc w)) children w w').
  { intros w'. split.
    - revert w. induction Hkeep as [|child rest Hchild Hrest IH]; intros w.
      + intros [= <-]. by constructor.
      + intros (w1 & Hc & Htail)%parseTuple_reject_inv.
        destruct (setState_rolls_back w w1 (Hchild _ _ Hc)) as [Hp Hms].
        econstructor; [done..|].
        rewrite <- Hp, <- Hms. by apply IH.
    - induction 1 as [|child rest w0 w1 w' _ _ Hc _ IH]; [done|].
      simpl. rewrite Hc. apply IH. by inversion Hkeep. }
  split; [done|].
  intros w' Hrej. by apply RejectsFrom_final with children w, Hiff.
Qed.

(** ** The nodes of a grammar only add matches

    Every node built from the expressions of [Grammar] leaves the matches
    present at its entry in place, so the rollback above applies to every
    choice of a grammar. *)

Lemma grows_keeps_matches (c : Node) : grows_matches c -> keeps_matches c.
Proof. intros H w w'. apply H. Qed.

Lemma TerminalParser_grows (c : ascii) : grows_matches (TerminalParser c).
Proof.
  intros w o w'. unfold TerminalParser.
  destruct (m_input (pc w) !! sourcePosition (pc w)) as [x|]; [case_decide|];
    by intros [= <- <-].
Qed.

Lemma RuleCall_grows (this : RuleId) (c : Node) :
  grows_matches c -> grows_matches (RuleCall.operator_call this c).
Proof.
  intros Hc w o w'.
  destruct (Rule.at_position (rules w this) (sourcePosition (pc w))) eqn:Hpos.
  - rewrite RuleCall_reentry by done. by intros [= <- <-].
  - rewrite RuleCall_first_entry by done.
    destruct (c _) as [[[b|x] w2]|] eqn:Ec; [| |done];
      intros [= <- <-]; apply (Hc _ _ _ Ec).
Qed.

Lemma SequenceParser_parseTuple_grows (cs : list Node) :
  Forall grows_matches cs ->
  forall w o w', SequenceParser.parseTuple cs w = Some (o, w') ->
    m_matches (pc w) `prefix_of` m_matches (pc w').
Proof.
  induction 1 as [|c cs Hc _ IH]; intros w o w'; simpl; [by intros [= <- <-]|].
  destruct (c w) as [[[[|]|x] w1]|] eqn:Ec; [| | |done].
  - intros Hrest. etrans; [apply (Hc _ _ _ Ec)|by eapply IH].
  - intros [= <- <-]. apply (Hc _ _ _ Ec).
  - intros [= <- <-]. apply (Hc _ _ _ Ec).
Qed.

Lemma SequenceParser_grows (cs : list Node) :
  Forall grows_matches cs -> grows_matches (SequenceParser.operator_call cs).
Proof.
  intros Hcs w o w'. unfold SequenceParser.operator_call.
  destruct (SequenceParser.parseTuple cs w) as [[o1 w1]|] eqn:Eseq; [|done].
  pose proof (SequenceParser_parseTuple_grows cs Hcs _ _ _ Eseq) as Hpre.
  destruct o1 as [[|]|x]; intros [= <- <-]; [done| |done].
  by rewrite (proj2 (setState_rolls_back w w1 Hpre)).
Qed.

Lemma MatchParser_grows (c : Node) (matchId : nat) :
  grows_matches c -> grows_matches (MatchParser.operator_call c matchId).
Proof.
  intros Hc w o w'. unfold MatchParser.operator_call.
  destruct (c w) as [[[[|]|x] w1]|] eqn:Ec; [| | |done]; intros [= <- <-]; simpl.
  - destruct (Hc _ _ _ Ec) as [k ->]. rewrite take_app_length. by apply prefix_app_r.
  - destruct (Hc _ _ _ Ec) as [k ->]. by rewrite take_app_length.
  - apply (Hc _ _ _ Ec).
Qed.

Lemma growLoop_grows (fuel : nat) (r : RuleId) (c : Node) :
  grows_matches c ->
  forall w o w', ChoiceParser.growLoop fuel r c w = Some (o, w') ->
    m_matches (pc w) `prefix_of` m_matches (pc w').
Proof.
  intros Hc. induction fuel as [|fuel IH]; intros w o w'; [done|].
  rewrite growLoop_step.
  destruct (c _) as [[[[|]|x] w2]|] eqn:Ec; [| | |done];
    pose proof (Hc _ _ _ Ec) as Hpre; rewrite pc_with_rule in Hpre.
  - case_bool_decide; [by intros [= <- <-]|].
    intros Hrest. etrans; [done|by eapply IH].
  - by intros [= <- <-].
  - by intros [= <- <-].
Qed.

Lemma ChoiceParser_grows (fuel : nat) (cs : list Node) :
  Forall grows_matches cs -> grows_matches (ChoiceParser.operator_call fuel cs).
Proof.
  unfold ChoiceParser.operator_call.
  induction 1 as [|c cs Hc _ IH]; intros w o w'; simpl; [by intros [= <- <-]|].
  destruct (c w) as [[[[|]|r] w1]|] eqn:Ec; [| | |done];
    pose proof (Hc _ _ _ Ec) as Hpre.
  - by intros [= <- <-].
  - intros Hrest. apply IH in Hrest.
    by rewrite (proj2 (setState_rolls_back w w1 Hpre)) in Hrest.
  - destruct (ChoiceParser.parseTuple fuel cs _) as [[[[|]|r'] w3]|] eqn:Eseed;
      [| | |done]; apply IH in Eseed; rewrite pc_with_rule in Eseed.
    + intros Hgrow. apply (growLoop_grows _ _ _ Hc) in Hgrow.
      rewrite pc_with_rule in Hgrow. by do 2 (etrans; [done|]).
    + intros [= <- <-]. by etrans.
    + intros [= <- <-]. by etrans.
Qed.

Lemma run_grows (g : Grammar.t) (fuel : nat) (e : Grammar.Expr) :
  grows_matches (Grammar.run g fuel e).
Proof.
  revert e. induction fuel as [|fuel IH]; intros e; [by intros w o w'|].
  destruct e as [c| |children|children|child matchId|r]; simpl.
  - apply TerminalParser_grows.
  - by intros w o w' [= <- <-].
  - apply SequenceParser_grows, Forall_fmap, Forall_forall. intros; apply IH.
  - apply ChoiceParser_grows, Forall_fmap, Forall_forall. intros; apply IH.
  - apply MatchParser_grows, IH.
  - apply RuleCall_grows, IH.
Qed.

(** ** The verdict-based rule ([rule.hpp]) *)

Section VerdictRule.
Import rule.

Lemma stack_set_left_recursion r lr c :
  stack r (set_left_recursion lr c) = stack r c.
Proof. done. Qed.

Lemma stack_activate_same this c :
  stack this (activate this c).2 = stack this c ++ [position c].
Proof. unfold stack, activate. simpl. by rewrite lookup_insert_eq. Qed.

Lemma stack_activate_other this r c :
  r <> this -> stack r (activate this c).2 = stack r c.
Proof. intros Hr. unfold stack, activate. simpl. by rewrite lookup_insert_ne. Qed.

Lemma stack_deactivate_same this c s p :
  stack this c = s ++ [p] -> stack this (deactivate this c) = s.
Proof.
  unfold stack, deactivate.
  destruct (positions c !! this) as [s'|] eqn:E; simpl.
  - intros ->. rewrite lookup_insert_eq. simpl.
    rewrite length_app. simpl.
    replace (length s + 1 - 1) with (length s) by lia.
    by rewrite take_app_length.
  - intros H. by destruct s.
Qed.

Lemma stack_deactivate_other this r c :
  r <> this -> stack r (deactivate this c) = stack r c.
Proof.
  intros Hr. unfold stack, deactivate.
  destruct (positions c !! this); [|done]. simpl. by rewrite lookup_insert_ne.
Qed.

Lemma lr_loop_keeps_stacks fuel e result c res c' r :
  keeps_stacks e ->
  lr_loop fuel e result c = Some (res, c') -> stack r c' = stack r c.
Proof.
  intros He. revert c.
  induction fuel as [|fuel IH]; intros c; [done|]. simpl.
  destruct (valid c); [|by intros [= <- <-]].
  destruct (e _) as [[res1 c1]|] eqn:Ee; [|done].
  apply (He _ _ _ r) in Ee. rewrite stack_set_left_recursion in Ee.
  destruct res1.
  - intros Hl. apply IH in Hl. congruence.
  - intros [= <- <-]. done.
  - intros Hl. apply IH in Hl. congruence.
  - intros [= <- <-]. done.
Qed.

Lemma dispatch_keeps_stacks fuel e b c res c' r :
  keeps_stacks e ->
  dispatch fuel e b c = Some (res, c') -> stack r c' = stack r c.
Proof.
  intros He. unfold dispatch.
  destruct (lr_state (left_recursion c)), b; simpl;
    repeat case_bool_decide; try by intros [= <- <-].
  - destruct (e c) as [[res1 c1]|] eqn:Ee; [|done].
    apply (He _ _ _ r) in Ee.
    destruct (lr_state (left_recursion c1)); try by intros [= <- <-].
    destruct res1; try by intros [= <- <-].
    destruct (lr_loop _ _ _ _) as [[res2 c2]|] eqn:El; [|done].
    apply (lr_loop_keeps_stacks _ _ _ _ _ _ r He) in El.
    intros [= <- <-]. rewrite stack_set_left_recursion in *. congruence.
  - destruct (e _) as [[res1 c1]|] eqn:Ee; [|done].
    apply (He _ _ _ r) in Ee. by intros [= <- <-].
  - by apply He.
  - destruct (e _) as [[res1 c1]|] eqn:Ee; [|done].
    apply (He _ _ _ r) in Ee. by intros [= <- <-].
  - destruct (e c) as [[res1 c1]|] eqn:Ee; [|done].
    apply (He _ _ _ r) in Ee. by destruct res1; intros [= <- <-].
Qed.

(** What [activate] returns, in terms of the vector before the push. *)
Lemma activate_left_recursive this c :
  (activate this c).1 = true <-> exists s, stack this c = s ++ [position c].
Proof.
  unfold activate. simpl. set (s0 := stack this c).
  rewrite andb_true_iff, !bool_decide_eq_true, length_app. simpl.
  replace (length s0 + 1 - 1) with (length s0 + 0) by lia.
  rewrite lookup_app_r, Nat.add_0_r, Nat.sub_diag by lia. simpl.
  destruct (decide (s0 = [])) as [->|Hne].
  - simpl. split; [lia|]. intros [s Hs]. by destruct s.
  - destruct (exists_last Hne) as (s & q & ->).
    rewrite length_app. simpl.
    replace (length s + 1 + 1 - 2) with (length s + 0) by lia.
    rewrite <- (assoc_L (++)), lookup_app_r, Nat.add_0_r, Nat.sub_diag by lia. simpl.
    split.
    + intros [_ [= ->]]. by exists s.
    + intros [s' Hs']. apply app_inj_tail in Hs' as [_ ->]. split; [lia|done].
Qed.

(** C9.  A rule entered non-recursively while the context's left-recursion
    state is [reject] or [accept], with the cursor strictly past the
    anchor, parses its body with the left-recursion record set to
    ([inactive], cursor) and puts the previous record back afterwards. *)
Theorem parse_past_anchor (fuel : nat) (this : RuleId) (m_expression : expression)
    (c : parse_context) :
  (activate this c).1 = false ->
  lr_state (left_recursion c) <> inactive ->
  lr_position (left_recursion c) < position c ->
  parse fuel this m_expression c
  = match m_expression
            (set_left_recursion (MkLeftRecursion inactive (position c))
               (activate this c).2) with
    | None => None
    | Some (result, c1) =>
        Some (result, deactivate this (set_left_recursion (left_recursion c) c1))
    end
  /\ forall result c', parse fuel this m_expression c = Some (result, c') ->
       left_recursion c' = left_recursion c.
Proof.
  intros Hact Hstate Hpast.
  assert (Heq : parse fuel this m_expression c
    = match m_expression
              (set_left_recursion (MkLeftRecursion inactive (position c))
                 (activate this c).2) with
      | None => None
      | Some (result, c1) =>
          Some (result, deactivate this (set_left_recursion (left_recursion c) c1))
      end).
  { unfold parse. destruct (activate this c) as [b c1] eqn:Ea.
    simpl in Hact. subst b.
    assert (Hc1 : c1 = (activate this c).2) by by rewrite Ea.
    assert (Hlr : left_recursion c1 = left_recursion c) by by rewrite Hc1.
    assert (Hp : position c1 = position c) by by rewrite Hc1.
    unfold dispatch. rewrite Hlr, Hp. simpl.
    destruct (lr_state (left_recursion c)); [done|..];
      rewrite bool_decide_eq_true_2 by done;
      by destruct (m_expression _) as [[? ?]|]. }
  split; [done|].
  intros result c'. rewrite Heq.
  destruct (m_expression _) as [[res1 c1]|]; [|done].
  intros [= <- <-]. unfold deactivate. simpl.
  by destruct (positions c1 !! this).
Qed.

(** C10.  Around a body that leaves the vectors of entry positions as it
    found them, [rule::parse] pushes the cursor on this rule's vector on
    entry and pops it on exit: the body is dispatched with the vector one
    longer, and after the call every rule's vector, this one included, is
    what it was before.  The invocation counts as left-recursive exactly
    when, after the push, the two newest entries are equal. *)
Theorem parse_keeps_stacks (fuel : nat) (this : RuleId) (m_expression : expression)
    (c : parse_context) :
  keeps_stacks m_expression ->
  stack this (activate this c).2 = stack this c ++ [position c]
  /\ ((activate this c).1 = true
      <-> exists s p, stack this (activate this c).2 = s ++ [p; p])
  /\ forall result c', parse fuel this m_expression c = Some (result, c') ->
       (exists c2, dispatch fuel m_expression (activate this c).1 (activate this c).2
                   = Some (result, c2)
                   /\ stack this c2 = stack this c ++ [position c]
                   /\ c' = deactivate this c2)
       /\ (forall r, stack r c' = stack r c)
       /\ length (stack this c') = length (stack this c).
Proof.
  intros He. split; [apply stack_activate_same|]. split.
  - rewrite activate_left_recursive, stack_activate_same. split.
    + intros [s ->]. exists s, (position c). by rewrite <- (assoc_L (++)).
    + intros (s & p & Hs). exists s.
      change [p; p] with ([p] ++ [p]) in Hs. rewrite (assoc_L (++)) in Hs.
      apply app_inj_tail in Hs as [-> ->]. done.
  - intros result c'. unfold parse.
    destruct (activate this c) as [b c1] eqn:Ea. simpl.
    assert (Hc1 : c1 = (activate this c).2) by by rewrite Ea.
    destruct (dispatch fuel m_expression b c1) as [[res2 c2]|] eqn:Ed; [|done].
    intros [= <- <-].
    assert (Hthis : stack this c2 = stack this c ++ [position c]).
    { rewrite (dispatch_keeps_stacks _ _ _ _ _ _ this He Ed), Hc1.
      apply stack_activate_same. }
    assert (Hall : forall r, stack r (deactivate this c2) = stack r c).
    { intros r. destruct (decide (r = this)) as [->|Hr].
      - by apply stack_deactivate_same with (position c).
      - rewrite stack_deactivate_other by done.
        rewrite (dispatch_keeps_stacks _ _ _ _ _ _ r He Ed), Hc1.
        by apply stack_activate_other. }
    split; [by exists c2|]. split; [done|]. by rewrite Hall.
Qed.

End VerdictRule.

(** ** The properties at concrete inputs *)

Section Witnesses.
Import Grammar Examples.

(** A rule in the [Accept] state invoked again at its recorded position. *)
Lemma Rule_reentry_decided_by_state_witness :
  let w := {| pc := start "a";
              rules := Rule.upd fresh 0 (Rule.Mk (Some 0) Rule.Accept) |} in
  Rule.m_parsePosition (rules w 0) = Some (sourcePosition (pc w))
  /\ RuleCall.operator_call 0 (fun _ => None) w = Some (Ret true, w).
Proof.
  intros w. split; [reflexivity|].
  exact (Rule_reentry_decided_by_state 0 (fun _ => None) w eq_refl).
Defined.

(** ['a' | B] on [a], with a second alternative that would never return. *)
Lemma ChoiceParser_commits_to_first_witness :
  let w := {| pc := start "a"; rules := fresh |} in
  let B : Node := fun _ => None in
  fst <$> TerminalParser "a" w = Some (Ret true)
  /\ ChoiceParser.operator_call 0 [TerminalParser "a"; B] w = TerminalParser "a" w.
Proof.
  intros w B. split; [reflexivity|].
  exact (ChoiceParser_commits_to_first 0 (TerminalParser "a") B w _ eq_refl).
Defined.

(** [E = E '+' '1' | '1'] on [1+1+1], inside the body of [E]: the
    alternative throws, ['1'] is the seed, two grow iterations reach the end
    of the input. *)
Lemma ChoiceParser_seed_and_grow_witness :
  let w := Signals.in_body "1+1+1" in
  let I := fun w0 => w0 = Signals.seeded \/ w0 = Signals.grown_once in
  plus_one w = Some (Throw 0, w)
  /\ advances_under I 0 plus_one
  /\ I Signals.seeded
  /\ exists o w' w_last,
       ChoiceParser.parseTuple 5 [plus_one; TerminalParser "1"] w = Some (o, w')
       /\ I w_last /\ last_iteration 0 plus_one w_last o w'.
Proof.
  intros w I.
  assert (Hadv : advances_under I 0 plus_one).
  { intros w0 [->| ->]; eexists _, _; (split; [vm_compute; reflexivity|]); intros _.
    - split; [vm_compute; lia|]. split; [vm_compute; lia|]. split; [reflexivity|].
      intros _. by right.
    - split; [vm_compute; lia|]. split; [vm_compute; lia|]. split; [reflexivity|].
      intros Hne. by exfalso; apply Hne. }
  split; [reflexivity|]. split; [done|]. split; [by left|].
  destruct (ChoiceParser_seed_and_grow 0 plus_one [TerminalParser "1"] w w 0 eq_refl)
    as (_ & _ & _ & H).
  destruct (H _ eq_refl) as (_ & _ & Hgrow).
  exact (Hgrow I Hadv (or_introl eq_refl)).
Defined.

Lemma growLoop_terminates_when_advancing_witness :
  let I := fun w => w = after_seed \/ w = after_first in
  advances_under I 0 plus_one
  /\ I after_seed
  /\ exists o w' w_last,
       ChoiceParser.growLoop 5 0 plus_one after_seed = Some (o, w')
       /\ I w_last /\ last_iteration 0 plus_one w_last o w'.
Proof.
  intros I.
  assert (Hadv : advances_under I 0 plus_one).
  { intros w [->| ->]; eexists _, _; (split; [vm_compute; reflexivity|]); intros _.
    - split; [vm_compute; lia|]. split; [vm_compute; lia|]. split; [reflexivity|].
      intros _. by right.
    - split; [vm_compute; lia|]. split; [vm_compute; lia|]. split; [reflexivity|].
      intros Hne. by exfalso; apply Hne. }
  split; [done|]. split; [by left|].
  exact (growLoop_terminates_when_advancing I 0 plus_one after_seed Hadv (or_introl eq_refl)).
Defined.

(** [('a' == 1) | 'b'] on [c]: both alternatives reject. *)
Lemma ChoiceParser_reject_rolls_back_witness :
  let w := {| pc := start "c"; rules := fresh |} in
  let children := [MatchParser.operator_call (TerminalParser "a") 1; TerminalParser "b"] in
  Forall keeps_matches children
  /\ ChoiceParser.parseTuple 0 children w = Some (Ret false, w)
  /\ RejectsFrom 0 [] children w w.
Proof.
  intros w children.
  assert (Hkeep : Forall keeps_matches children).
  { repeat constructor; apply grows_keeps_matches;
      [apply MatchParser_grows|]; apply TerminalParser_grows. }
  split; [done|]. split; [reflexivity|].
  exact (proj1 (proj1 (ChoiceParser_reject_rolls_back 0 children w Hkeep) w) eq_refl).
Defined.

(** A first entry of a rule whose body is the empty parser. *)
Lemma recursion_state_location_witness :
  let w := {| pc := start "a"; rules := fresh |} in
  Rule.at_position (rules w 0) (sourcePosition (pc w)) = false
  /\ exists w', RuleCall.operator_call 0 EmptyParser w = Some (Ret true, w')
       /\ rules w' 0 = rules w 0.
Proof.
  intros w. split; [reflexivity|].
  destruct (proj1 (recursion_state_location 0) EmptyParser w eq_refl)
    as (_ & _ & _ & H).
  destruct (H true _ eq_refl) as (w' & Hcall & Hsame & _).
  by exists w'.
Defined.

(** [E = (E '+' '1' | '1') == 7] on [1+1+1] under two budgets. *)
Lemma parse_deterministic_witness :
  exists res1 res2,
    parse sum 10 0 fresh "1+1+1" = Some res1
    /\ parse sum 12 0 fresh "1+1+1" = Some res2
    /\ res1 = res2
    /\ report res1 = MkReport (Ret true) 5 [MkMatch 7 0 5 []].
Proof.
  eexists _, _. split; [vm_compute; reflexivity|]. split; [vm_compute; reflexivity|].
  split; [|reflexivity].
  apply (parse_deterministic sum 0 fresh "1+1+1" 10 12); vm_compute; reflexivity.
Defined.

(** A rule entered at 2 after an entry at 0, in the [accept] state anchored
    at 1; the body accepts. *)
Lemma parse_past_anchor_witness :
  let c := rule.MkContext 2 3 {[ 0 := [0] ]} (rule.MkLeftRecursion rule.accept 1) in
  let body : rule.expression := fun c => Some (rule.accepted, c) in
  (rule.activate 0 c).1 = false
  /\ rule.lr_state (rule.left_recursion c) <> rule.inactive
  /\ rule.lr_position (rule.left_recursion c) < rule.position c
  /\ rule.parse 0 0 body c
     = Some (rule.accepted,
             rule.MkContext 2 3 (<[0 := [0]]> (<[0 := [0; 2]]> {[ 0 := [0] ]}))
               (rule.MkLeftRecursion rule.accept 1)).
Proof.
  intros c body.
  assert (H1 : (rule.activate 0 c).1 = false) by reflexivity.
  assert (H2 : rule.lr_state (rule.left_recursion c) <> rule.inactive) by done.
  assert (H3 : rule.lr_position (rule.left_recursion c) < rule.position c)
    by (simpl; lia).
  split; [done|]. split; [done|]. split; [done|].
  exact (proj1 (parse_past_anchor 0 0 body c H1 H2 H3)).
Defined.

(** A rule whose body is a reference to itself at the same position. *)
Lemma parse_keeps_stacks_witness :
  let c := rule.MkContext 0 1 ∅ (rule.MkLeftRecursion rule.inactive 0) in
  let leaf : rule.expression := fun c => Some (rule.accepted, c) in
  let body : rule.expression := rule.parse 1 0 leaf in
  keeps_stacks body
  /\ (rule.activate 0 c).1 = false
  /\ (rule.activate 0 (rule.activate 0 c).2).1 = true
  /\ exists result c', rule.parse 1 0 body c = Some (result, c')
       /\ rule.stack 0 c' = rule.stack 0 c.
Proof.
  intros c leaf body.
  assert (Hleaf : keeps_stacks leaf) by by intros ? ? ? ? [= <- <-].
  assert (Hbody : keeps_stacks body).
  { intros c0 res c' r Hp.
    by apply (proj2 (proj2 (parse_keeps_stacks 1 0 leaf c0 Hleaf)) res c' Hp). }
  split; [done|]. split; [reflexivity|]. split; [reflexivity|].
  destruct (rule.parse 1 0 body c) as [[result c']|] eqn:Hp; [|by vm_compute in Hp].
  exists result, c'. split; [done|].
  by apply (proj2 (proj2 (parse_keeps_stacks 1 0 body c Hbody)) result c' Hp).
Defined.

End Witnesses.

(** * Further properties of the sources *)

(** ** [operator |]: flattening *)

Section ChoiceOperatorFacts.
Import Grammar ChoiceOperators.

(** Whatever overload applies, the result is the choice of the alternatives
    of the left operand followed by those of the right one. *)
Lemma operator_or_alternatives (node1 node2 : Expr) :
  operator_or node1 node2 = Choice (alternatives node1 ++ alternatives node2).
Proof. by destruct node1, node2. Qed.

(** [(a | b) | c] and [a | (b | c)] build the same [ChoiceParser]: its
    children are the alternatives of [a], of [b] and of [c], in this order. *)
Theorem operator_or_assoc (a b c : Expr) :
  operator_or (operator_or a b) c = operator_or a (operator_or b c)
  /\ alternatives (operator_or (operator_or a b) c)
     = alternatives a ++ alternatives b ++ alternatives c.
Proof.
  rewrite !operator_or_alternatives. simpl.
  by rewrite (assoc_L (++)).
Qed.

(** A choice built by [operator |] from operands without a [ChoiceParser]
    among their alternatives has none among its children, and it has at
    least as many children as operands. *)
Theorem operator_or_flat (a b : Expr) :
  flat a -> flat b ->
  flat (operator_or a b)
  /\ is_choice (operator_or a b) = true
  /\ length (alternatives (operator_or a b))
     = length (alternatives a) + length (alternatives b).
Proof.
  intros Ha Hb. rewrite operator_or_alternatives. unfold flat. simpl.
  split; [by apply Forall_app|]. split; [done|]. apply length_app.
Qed.

(** The operators of [Rule.hpp] put a reference to the rule where the rule
    stands: in front of, or behind, the alternatives of the other operand. *)
Theorem rule_operators_alternatives (r1 r2 : RuleId) (node : Expr) :
  rule_or_rule r1 r2 = Choice [RuleReference r1; RuleReference r2]
  /\ rule_or_node r1 node = Choice (RuleReference r1 :: alternatives node)
  /\ node_or_rule node r2 = Choice (alternatives node ++ [RuleReference r2]).
Proof.
  unfold rule_or_rule, rule_or_node, node_or_rule.
  by rewrite !operator_or_alternatives.
Qed.

End ChoiceOperatorFacts.

(** ** Ordered choice over appended alternatives *)

(** The choice over [cs1 ++ cs2] in terms of the choice over [cs1]: a
    success of the first group is the success of the whole, whatever follows;
    after a rejection of the first group the second group runs from the
    state the first one left. *)
Theorem parseTuple_app (fuel : nat) (cs1 cs2 : list Node) (w w' : World) (b : bool) :
  ChoiceParser.parseTuple fuel cs1 w = Some (Ret b, w') ->
  ChoiceParser.parseTuple fuel (cs1 ++ cs2) w
  = if b then Some (Ret true, w') else ChoiceParser.parseTuple fuel cs2 w'.
Proof.
  revert w w' b. induction cs1 as [|c cs1 IH]; intros w w' b; simpl.
  - by intros [= <- <-].
  - destruct (c w) as [[[[|]|r] w1]|]; [| | |done].
    + by intros [= <- <-].
    + apply IH.
    + destruct (ChoiceParser.parseTuple fuel cs1 _) as [[[[|]|r'] w3]|] eqn:Eseed;
        [| | |done]; [|done..].
      rewrite (IH _ _ _ Eseed). intros Hgrow. rewrite Hgrow.
      by destruct (growLoop_outcome _ _ _ _ _ _ Hgrow) as [[= ->]|[x [=]]].
Qed.

(** ** Ordered choice: the context when the exception is thrown again *)

Lemma parseTuple_reject_context (fuel : nat) (cs : list Node) (w w' : World) :
  Forall keeps_matches cs ->
  ChoiceParser.parseTuple fuel cs w = Some (Ret false, w') ->
  sourcePosition (pc w') = sourcePosition (pc w)
  /\ m_matches (pc w') = m_matches (pc w).
Proof.
  intros Hcs. revert w. induction Hcs as [|c cs Hc _ IH]; intros w.
  - by intros [= <-].
  - intros (w1 & Hcw & Htail)%parseTuple_reject_inv.
    destruct (setState_rolls_back w w1 (Hc _ _ Hcw)) as [Hp Hms].
    destruct (IH _ Htail) as [Hp' Hms']. split; congruence.
Qed.

(** When an alternative throws and no later alternative provides a seed, the
    choice throws for the same rule without going back to its own snapshot:
    cursor and match list are those at which the alternative threw, and the
    failed attempts at a seed have been rolled back to that point. *)
Theorem parseTuple_rethrow_context
    (fuel : nat) (child : Node) (rest : list Node) (w w1 w3 : World) (r : RuleId) :
  Forall keeps_matches rest ->
  child w = Some (Throw r, w1) ->
  ChoiceParser.parseTuple fuel rest (with_rule r Rule.setRejectState w1)
  = Some (Ret false, w3) ->
  ChoiceParser.parseTuple fuel (child :: rest) w = Some (Throw r, w3)
  /\ sourcePosition (pc w3) = sourcePosition (pc w1)
  /\ m_matches (pc w3) = m_matches (pc w1).
Proof.
  intros Hrest Hthrow Hseed. split.
  - by rewrite (parseTuple_catch _ _ _ _ _ _ Hthrow), Hseed.
  - apply (parseTuple_reject_context _ _ _ _ Hrest Hseed).
Qed.

(** ** The cursor never moves back *)

Lemma growLoop_forward (fuel : nat) (r : RuleId) (c : Node) :
  forward c ->
  forall w o w', ChoiceParser.growLoop fuel r c w = Some (o, w') ->
    sourcePosition (pc w) <= sourcePosition (pc w').
Proof.
  intros Hc. induction fuel as [|fuel IH]; intros w o w'; [done|].
  rewrite growLoop_step.
  destruct (c _) as [[[[|]|x] w2]|] eqn:Ec; [| | |done];
    pose proof (Hc _ _ _ Ec) as Hle; rewrite pc_with_rule in Hle.
  - case_bool_decide; [by intros [= <- <-]|].
    intros Hrest%IH. lia.
  - by intros [= <- <-].
  - by intros [= <- <-].
Qed.

(** A rule and an ordered choice whose parts never leave the cursor before
    the place they found it never do so themselves, whether they return
    [true] or [false] or throw; a choice that returns [false] leaves the
    cursor where it was. *)
Theorem cursor_never_moves_back (fuel : nat) (this : RuleId) (body : Node)
    (children : list Node) :
  forward body -> Forall forward children ->
  forward (RuleCall.operator_call this body)
  /\ forward (ChoiceParser.operator_call fuel children)
  /\ forall w w', ChoiceParser.operator_call fuel children w = Some (Ret false, w') ->
       sourcePosition (pc w') = sourcePosition (pc w).
Proof.
  intros Hbody Hcs. split; [|split].
  - intros w o w'.
    destruct (Rule.at_position (rules w this) (sourcePosition (pc w))) eqn:Hpos.
    + rewrite RuleCall_reentry by done. by intros [= <- <-].
    + rewrite RuleCall_first_entry by done.
      destruct (body _) as [[[b|x] w2]|] eqn:Eb; [| |done];
        intros [= <- <-]; apply (Hbody _ _ _ Eb).
  - unfold ChoiceParser.operator_call.
    induction Hcs as [|c cs Hc _ IH]; intros w o w'; simpl; [by intros [= <- <-]|].
    destruct (c w) as [[[[|]|r] w1]|] eqn:Ec; [| | |done];
      pose proof (Hc _ _ _ Ec) as Hle.
    + by intros [= <- <-].
    + intros Hrest%IH. done.
    + destruct (ChoiceParser.parseTuple fuel cs _) as [[[[|]|r'] w3]|] eqn:Eseed;
        [| | |done]; apply IH in Eseed; rewrite pc_with_rule in Eseed.
      * intros Hgrow%(growLoop_forward _ _ _ Hc). rewrite pc_with_rule in Hgrow. lia.
      * intros [= <- <-]. lia.
      * intros [= <- <-]. lia.
  - unfold ChoiceParser.operator_call. clear Hcs.
    induction children as [|c cs IH]; intros w w'; [by intros [= <-]|].
    intros (w1 & _ & Htail)%parseTuple_reject_inv. by apply IH in Htail.
Qed.

(** ** Matches are only added *)

(** A rule and an ordered choice whose parts leave in place the matches they
    find at their entry do so themselves, on every outcome: what they return
    with is the match list of the caller, possibly extended. *)
Theorem matches_only_grow (fuel : nat) (this : RuleId) (body : Node)
    (children : list Node) :
  grows_matches body -> Forall grows_matches children ->
  grows_matches (RuleCall.operator_call this body)
  /\ grows_matches (ChoiceParser.operator_call fuel children).
Proof.
  intros Hbody Hcs. split; [by apply RuleCall_grows|by apply ChoiceParser_grows].
Qed.

(** ** Snapshots ([parser_state.cpp]) *)

(** A snapshot taken on a list of sub-nodes and a position gives both back
    when it is restored after sub-nodes were added and the position moved;
    restoring is idempotent. *)
Theorem parser_state_round_trip
    (subnodes added : list Match) (pos pos' : Position) :
  let st := parser_state_new subnodes pos in
  restore st (subnodes ++ added) pos' = (subnodes, pos)
  /\ restore st (restore st (subnodes ++ added) pos').1
                (restore st (subnodes ++ added) pos').2 = (subnodes, pos)
  /\ m_subnodes_count st = length subnodes.
Proof.
  simpl. unfold restore, resize_subnodes. simpl.
  rewrite take_app_length. simpl. by rewrite firstn_all.
Qed.

(** ** [rule.hpp]: entering and leaving a rule *)

Section VerdictRuleFacts.
Import rule.

Lemma set_positions_same (c : parse_context) : set_positions (positions c) c = c.
Proof. by destruct c. Qed.

Lemma left_recursion_deactivate this c :
  left_recursion (deactivate this c) = left_recursion c.
Proof. unfold deactivate. by destruct (positions c !! this). Qed.

Lemma position_deactivate this c : position (deactivate this c) = position c.
Proof. unfold deactivate. by destruct (positions c !! this). Qed.

Lemma deactivate_set_left_recursion this lr c :
  deactivate this (set_left_recursion lr c)
  = set_left_recursion lr (deactivate this c).
Proof. unfold deactivate. simpl. by destruct (positions c !! this). Qed.

Lemma deactivate_activate_eq (this : RuleId) (c : parse_context) :
  deactivate this (activate this c).2
  = set_positions (<[this := stack this c]> (positions c)) c.
Proof.
  unfold deactivate, activate. simpl. rewrite lookup_insert_eq.
  unfold set_positions. simpl. rewrite insert_insert_eq.
  rewrite length_app. simpl.
  replace (length (stack this c) + 1 - 1) with (length (stack this c)) by lia.
  by rewrite take_app_length.
Qed.

Lemma deactivate_activate_present (this : RuleId) (c : parse_context) :
  is_Some (positions c !! this) -> deactivate this (activate this c).2 = c.
Proof.
  intros [s Hs]. rewrite deactivate_activate_eq. unfold stack. rewrite Hs. simpl.
  rewrite insert_id by done. apply set_positions_same.
Qed.

(** [deactivate] undoes [activate].  A rule that has an entry in
    [pc.positions] finds the context exactly as before; for a rule without
    one, [pc.positions[this]] has created the entry, and it stays, empty. *)
Theorem deactivate_activate (this : RuleId) (c : parse_context) :
  deactivate this (activate this c).2
  = set_positions (<[this := stack this c]> (positions c)) c
  /\ (is_Some (positions c !! this) -> deactivate this (activate this c).2 = c)
  /\ (positions c !! this = None ->
        positions (deactivate this (activate this c).2) !! this = Some []).
Proof.
  split; [apply deactivate_activate_eq|]. split; [apply deactivate_activate_present|].
  intros Hnone. rewrite deactivate_activate_eq. simpl. unfold stack.
  rewrite Hnone. simpl. by rewrite lookup_insert_eq.
Qed.

Lemma parse_reentry (fuel : nat) (this : RuleId)
    (m_expression : expression) (c : parse_context) :
  (activate this c).1 = true ->
  parse fuel this m_expression c = Some (left_recursive_result c).
Proof.
  intros Hact.
  assert (Hsome : is_Some (positions c !! this)).
  { apply activate_left_recursive in Hact as [s Hs]. unfold stack in Hs.
    destruct (positions c !! this); [done|]. by destruct s. }
  pose proof (deactivate_activate_present this c Hsome) as Hback.
  unfold parse, left_recursive_result. destruct (activate this c) as [b c1] eqn:Ea.
  simpl in Hact, Hback. subst b.
  assert (Hc1 : c1 = (activate this c).2) by by rewrite Ea.
  assert (Hlr : left_recursion c1 = left_recursion c) by by rewrite Hc1.
  assert (Hp : position c1 = position c) by by rewrite Hc1.
  unfold dispatch. rewrite Hlr. simpl.
  destruct (lr_state (left_recursion c)); [|by rewrite Hback..].
  by rewrite deactivate_set_left_recursion, Hback, Hp.
Qed.

(** A left-recursive entry (the rule is entered again at the position of
    its newest entry) never invokes the expression.  In the [inactive] state
    it records ([reject], cursor) in the context and returns
    [rejected_left_recursion]; in the [reject] state it returns
    [rejected_left_recursion] and in the [accept] state [accepted], the
    context being exactly the one received. *)
Theorem parse_left_recursive_entry (fuel : nat) (this : RuleId)
    (m_expression : expression) (c : parse_context) :
  (activate this c).1 = true ->
  parse fuel this m_expression c
  = Some (match lr_state (left_recursion c) with
          | inactive =>
              (rejected_left_recursion,
               set_left_recursion (MkLeftRecursion reject (position c)) c)
          | reject => (rejected_left_recursion, c)
          | accept => (accepted, c)
          end).
Proof. apply parse_reentry. Qed.

(** The left-recursion record across a call.  Around an expression that
    hands the record back (or turns an [inactive] record into a [reject]
    one), [rule::parse] does the same; and an entry that is not
    left-recursive always hands back the record it received. *)
Theorem parse_left_recursion_discipline (fuel : nat) (this : RuleId)
    (m_expression : expression) :
  lr_disciplined m_expression ->
  lr_disciplined (parse fuel this m_expression)
  /\ forall c res c',
       (activate this c).1 = false ->
       parse fuel this m_expression c = Some (res, c') ->
       left_recursion c' = left_recursion c.
Proof.
  intros He.
  assert (Hfirst : forall c res c',
            (activate this c).1 = false ->
            parse fuel this m_expression c = Some (res, c') ->
            left_recursion c' = left_recursion c).
  { intros c res c' Hact. unfold parse.
    destruct (activate this c) as [b c1] eqn:Ea. simpl in Hact. subst b.
    assert (Hc1 : c1 = (activate this c).2) by by rewrite Ea.
    assert (Hlr : left_recursion c1 = left_recursion c) by by rewrite Hc1.
    destruct (dispatch fuel m_expression false c1) as [[res2 c2]|] eqn:Ed; [|done].
    intros [= <- <-]. rewrite left_recursion_deactivate, <- Hlr.
    clear Ea Hlr Hc1. revert Ed. unfold dispatch. simpl.
    destruct (lr_state (left_recursion c1)) eqn:Est.
    - destruct (m_expression c1) as [[r1 c1']|] eqn:Ee; [|done].
      destruct (He _ _ _ Ee) as [Hsame|[_ Hrej]].
      + rewrite Hsame, Est. by intros [= <- <-].
      + rewrite Hrej.
        destruct (match r1 with accepted => _ | _ => _ end) as [[r2 c2']|]; [|done].
        by intros [= <- <-].
    - case_bool_decide.
      + destruct (m_expression _) as [[r1 c1']|]; [|done]. by intros [= <- <-].
      + intros Ee. destruct (He _ _ _ Ee) as [?|[? _]]; [done|congruence].
    - case_bool_decide.
      + destruct (m_expression _) as [[r1 c1']|]; [|done]. by intros [= <- <-].
      + destruct (m_expression c1) as [[r1 c1']|] eqn:Ee; [|done].
        intros Hres. assert (c2 = c1') as -> by (by destruct r1; injection Hres).
        destruct (He _ _ _ Ee) as [?|[? _]]; [done|congruence]. }
  split; [|done].
  intros c res c' Hp.
  destruct ((activate this c).1) eqn:Hact.
  - rewrite parse_reentry in Hp by done. unfold left_recursive_result in Hp.
    destruct (lr_state (left_recursion c)) eqn:Est; injection Hp as <- <-; auto.
  - left. by apply (Hfirst c res c').
Qed.



(** The grow loop of [rule.hpp].  It does not invoke the expression when the
    cursor is at the end of the input.  When every accepting iteration
    advances the cursor, it returns within [end - cursor + 1] iterations,
    with the verdict of the seed or with [rejected_left_recursion]. *)
Theorem lr_loop_terminates_when_advancing
    (I : parse_context -> Prop) (m_expression : expression)
    (result : parse_result) (c : parse_context) :
  lr_advances_under I m_expression ->
  I c ->
  (valid c = false ->
     forall fuel, lr_loop (S fuel) m_expression result c = Some (result, c))
  /\ exists res c',
       lr_loop (S (end_position c - position c)) m_expression result c = Some (res, c')
       /\ (res = result \/ res = rejected_left_recursion).
Proof.
  intros Hadv HI. split.
  - intros Hv fuel. simpl. by rewrite Hv.
  - assert (H : forall d c0, I c0 -> end_position c0 - position c0 <= d ->
              exists res c',
                lr_loop (S d) m_expression result c0 = Some (res, c')
                /\ (res = result \/ res = rejected_left_recursion)).
    { induction d as [|d IH]; intros c0 HI0 Hd;
        (change (lr_loop (S ?n) m_expression result c0)
           with (if valid c0 then
                   match m_expression
                           (set_left_recursion
                              (MkLeftRecursion (lr_state (left_recursion c0)) (position c0))
                              c0) with
                   | None => None
                   | Some (accepted, pc2) | Some (accepted_left_recursion, pc2) =>
                       lr_loop n m_expression result pc2
                   | Some (rejected, pc2) => Some (result, pc2)
                   | Some (rejected_left_recursion, pc2) =>
                       Some (rejected_left_recursion, pc2)
                   end
                 else Some (result, c0)));
        (destruct (valid c0) eqn:Hv; [|by eauto]);
        destruct (Hadv c0 HI0) as (r & c1 & -> & Hprog);
        unfold valid in *;
        (destruct r; simpl in Hprog;
           [destruct Hprog as (Hlt & Hle & Hend & Hnext); [done|]
           |by eauto
           |destruct Hprog as (Hlt & Hle & Hend & Hnext); [done|]
           |by eauto]).
      - apply negb_true_iff, bool_decide_eq_false in Hv. lia.
      - apply negb_true_iff, bool_decide_eq_false in Hv. lia.
      - destruct (negb (bool_decide (position c1 = end_position c1))) eqn:Hv1.
        + apply IH; [by apply Hnext|]. lia.
        + exists result, c1. split; [|by left]. destruct d; simpl; unfold valid;
            by rewrite Hv1.
      - destruct (negb (bool_decide (position c1 = end_position c1))) eqn:Hv1.
        + apply IH; [by apply Hnext|]. lia.
        + exists result, c1. split; [|by left]. destruct d; simpl; unfold valid;
            by rewrite Hv1. }
    by apply H.
Qed.

End VerdictRuleFacts.

(** ** Left recursion end to end: [E = E '+' '1' | '1'] *)

Section ArithmeticFacts.
Import Grammar Arithmetic.

Lemma ones_length (n : nat) : length (ones n) = 2 * n + 1.
Proof. induction n as [|n IH]; simpl; [done|]. rewrite IH. lia. Qed.

Lemma ones_lookup_even (n k : nat) :
  k <= n -> ones n !! (2 * k) = Some "1"%char.
Proof.
  revert k. induction n as [|n IH]; intros k Hk.
  - by replace k with 0 by lia.
  - destruct k as [|k]; [done|].
    replace (2 * S k) with (S (S (2 * k))) by lia. simpl. apply IH. lia.
Qed.

Lemma ones_lookup_odd (n k : nat) :
  k < n -> ones n !! (2 * k + 1) = Some "+"%char.
Proof.
  revert k. induction n as [|n IH]; intros k Hk; [lia|].
  destruct k as [|k]; [done|].
  replace (2 * S k + 1) with (S (S (2 * k + 1))) by lia. simpl. apply IH. lia.
Qed.

Lemma TerminalParser_hit (c : ascii) (w : World) :
  m_input (pc w) !! sourcePosition (pc w) = Some c ->
  TerminalParser c w = Some (Ret true, step w).
Proof. intros H. unfold TerminalParser. rewrite H. by rewrite decide_True. Qed.

Lemma TerminalParser_end (c : ascii) (w : World) :
  m_input (pc w) !! sourcePosition (pc w) = None ->
  TerminalParser c w = Some (Ret false, w).
Proof. intros H. unfold TerminalParser. by rewrite H. Qed.

Lemma alt_throws (f : nat) (w : World) :
  rules w 0 = Rule.Mk (Some (sourcePosition (pc w))) Rule.Normal ->
  alt f w = Some (Throw 0, w).
Proof.
  intros Hr. unfold alt, SequenceParser.operator_call. simpl.
  rewrite RuleCall_reentry; rewrite Hr; [done|].
  unfold Rule.at_position. simpl. by apply bool_decide_eq_true_2.
Qed.

Lemma alt_grows (f : nat) (w : World) :
  rules w 0 = Rule.Mk (Some (sourcePosition (pc w))) Rule.Accept ->
  m_input (pc w) !! sourcePosition (pc w) = Some "+"%char ->
  m_input (pc w) !! S (sourcePosition (pc w)) = Some "1"%char ->
  alt f w = Some (Ret true, step (step w)).
Proof.
  intros Hr Hplus Hone. unfold alt, SequenceParser.operator_call. simpl.
  rewrite RuleCall_reentry; rewrite Hr; simpl;
    [|unfold Rule.at_position; simpl; by apply bool_decide_eq_true_2].
  rewrite (TerminalParser_hit _ _ Hplus).
  by rewrite (TerminalParser_hit "1" (step w) Hone).
Qed.

Lemma alt_stops (f : nat) (w : World) :
  rules w 0 = Rule.Mk (Some (sourcePosition (pc w))) Rule.Accept ->
  m_input (pc w) !! sourcePosition (pc w) = None ->
  alt f w = Some (Ret false, with_pc (setState (state (pc w))) w).
Proof.
  intros Hr Hend. unfold alt, SequenceParser.operator_call. simpl.
  rewrite RuleCall_reentry; rewrite Hr; simpl;
    [|unfold Rule.at_position; simpl; by apply bool_decide_eq_true_2].
  by rewrite (TerminalParser_end _ _ Hend).
Qed.

(** The grow loop from the cursor [2k+1] consumes the remaining additions. *)
Lemma additions_grow (n f : nat) :
  forall d k fuel w,
    n = k + d -> d < fuel ->
    m_input (pc w) = ones n ->
    sourcePosition (pc w) = 2 * k + 1 ->
    Rule.m_state (rules w 0) = Rule.Accept ->
    exists w',
      ChoiceParser.growLoop fuel 0 (alt f) w = Some (Ret true, w')
      /\ sourcePosition (pc w') = 2 * n + 1
      /\ m_matches (pc w') = m_matches (pc w)
      /\ m_input (pc w') = ones n.
Proof.
  induction d as [|d IH]; intros k fuel w Hn Hfuel Hin Hpos Hacc;
    (destruct fuel as [|fuel]; [lia|]); rewrite growLoop_step;
    set (w1 := with_rule 0 (Rule.setParsePosition (sourcePosition (pc w))) w);
    assert (Hr : rules w1 0 = Rule.Mk (Some (sourcePosition (pc w1))) Rule.Accept)
      by (unfold w1; rewrite rules_with_rule_same, pc_with_rule;
          unfold Rule.setParsePosition; by rewrite Hacc).
  - rewrite (alt_stops f w1 Hr).
    + eexists. split; [done|]. unfold sourcePosition in *. simpl.
      split; [lia|]. split; [|done].
      unfold resize_subnodes. by rewrite firstn_all.
    + unfold w1. rewrite pc_with_rule, Hin, Hpos.
      apply lookup_ge_None. rewrite ones_length. lia.
  - rewrite (alt_grows f w1 Hr).
    + unfold sourcePosition, sourceEndPosition in *. simpl.
      rewrite Hin, ones_length.
      case_bool_decide as Hstop.
      * eexists. split; [done|]. simpl. split; [lia|done].
      * destruct (IH (S k) fuel (step (step w1))) as (w' & Hw' & Hp' & Hms' & Hin').
        { lia. }
        { lia. }
        { done. }
        { unfold sourcePosition. simpl. lia. }
        { change (rules (step (step w1)) 0) with (rules w1 0). by rewrite Hr. }
        exists w'. split; [done|]. split; [done|]. split; [|done].
        by rewrite Hms'.
    + unfold w1. rewrite pc_with_rule, Hin, Hpos. apply ones_lookup_odd. lia.
    + unfold w1. rewrite pc_with_rule, Hin, Hpos.
      replace (S (2 * k + 1)) with (2 * S k) by lia. apply ones_lookup_even. lia.
Qed.

(** Every input [1+1+...+1] is accepted as a whole by [E = E '+' '1' | '1']:
    the reference to [E] inside the first alternative throws, ['1'] gives the
    seed, and the grow loop consumes one ['+' '1'] per iteration up to the
    end of the input.  The rule object is then as it was constructed. *)
Theorem additions_accepted (n fuel : nat) :
  n + 4 <= fuel ->
  exists w',
    run additions fuel (RuleReference 0) (at_start (ones n)) = Some (Ret true, w')
    /\ sourcePosition (pc w') = 2 * n + 1
    /\ sourcePosition (pc w') = sourceEndPosition (pc w')
    /\ m_matches (pc w') = []
    /\ rules w' 0 = Rule.init.
Proof.
  intros Hfuel.
  destruct fuel as [|[|[|[|f]]]]; try lia.
  set (w0 := at_start (ones n)).
  change (run additions (S (S (S (S f)))) (RuleReference 0) w0)
    with (RuleCall.operator_call 0
            (ChoiceParser.parseTuple (S (S f)) [alt f; TerminalParser "1"]) w0).
  rewrite RuleCall_first_entry by done.
  set (w1 := with_rule 0 _ w0).
  rewrite (parseTuple_catch _ _ _ w1 w1 0) by by apply alt_throws.
  set (w2 := with_rule 0 Rule.setRejectState w1).
  assert (Hseed : ChoiceParser.parseTuple (S (S f)) [TerminalParser "1"] w2
                  = Some (Ret true, step w2)).
  { simpl. rewrite (TerminalParser_hit "1" w2); [done|].
    apply (ones_lookup_even n 0). lia. }
  rewrite Hseed.
  destruct (additions_grow n f n 0 (S (S f)) (with_rule 0 Rule.setAcceptState (step w2)))
    as (w' & Hgrow & Hpos & Hms & Hin); try done; try lia.
  rewrite Hgrow. eexists. split; [done|].
  rewrite pc_with_rule, rules_with_rule_same.
  split; [done|]. split; [|split; [by rewrite Hms|done]].
  unfold sourceEndPosition. by rewrite Hin, ones_length.
Qed.

End ArithmeticFacts.

(** ** The further properties at concrete inputs *)

Section FurtherWitnesses.
Import Grammar Examples ChoiceOperators Arithmetic.

(** [('a' | 'b') | R]. *)
Lemma operator_or_flat_witness :
  let a := Choice [Terminal "a"; Terminal "b"] in
  let b := RuleReference 0 in
  flat a /\ flat b
  /\ operator_or a b = Choice [Terminal "a"; Terminal "b"; RuleReference 0]
  /\ flat (operator_or a b).
Proof.
  intros a b.
  assert (Ha : flat a) by (by repeat constructor).
  assert (Hb : flat b) by (by repeat constructor).
  split; [done|]. split; [done|]. split; [reflexivity|].
  exact (proj1 (operator_or_flat a b Ha Hb)).
Defined.

(** ['a' | 'b'] on [b]: the group ['a'] rejects, ['b'] goes on. *)
Lemma parseTuple_app_witness :
  let w := {| pc := start "b"; rules := fresh |} in
  ChoiceParser.parseTuple 0 [TerminalParser "a"] w = Some (Ret false, w)
  /\ ChoiceParser.parseTuple 0 ([TerminalParser "a"] ++ [TerminalParser "b"]) w
     = ChoiceParser.parseTuple 0 [TerminalParser "b"] w.
Proof.
  intros w. split; [reflexivity|].
  exact (parseTuple_app 0 [TerminalParser "a"] [TerminalParser "b"] w w false eq_refl).
Defined.

(** [E = E | 'a'] on [b], inside the body of [E]: no seed. *)
Lemma parseTuple_rethrow_context_witness :
  let w := {| pc := start "b";
              rules := Rule.upd fresh 0 (Rule.Mk (Some 0) Rule.Normal) |} in
  let child := run stutter 1 (RuleReference 0) in
  let w3 := with_rule 0 Rule.setRejectState w in
  Forall keeps_matches [TerminalParser "a"]
  /\ child w = Some (Throw 0, w)
  /\ ChoiceParser.parseTuple 0 [TerminalParser "a"] w3 = Some (Ret false, w3)
  /\ ChoiceParser.parseTuple 0 [child; TerminalParser "a"] w = Some (Throw 0, w3).
Proof.
  intros w child w3.
  assert (Hk : Forall keeps_matches [TerminalParser "a"]).
  { repeat constructor. apply grows_keeps_matches, TerminalParser_grows. }
  split; [done|]. split; [reflexivity|]. split; [reflexivity|].
  exact (proj1 (parseTuple_rethrow_context 0 child [TerminalParser "a"] w w w3 0
                  Hk eq_refl eq_refl)).
Defined.

Lemma TerminalParser_forward (c : ascii) : forward (TerminalParser c).
Proof.
  intros w o w'. unfold TerminalParser.
  destruct (m_input (pc w) !! sourcePosition (pc w)) as [x|]; [case_decide|];
    intros [= <- <-]; unfold sourcePosition; simpl; lia.
Qed.

(** A rule over ['a'] and the choice ['a' | 'b']. *)
Lemma cursor_never_moves_back_witness :
  let children := [TerminalParser "a"; TerminalParser "b"] in
  forward (TerminalParser "a") /\ Forall forward children
  /\ forward (RuleCall.operator_call 0 (TerminalParser "a"))
  /\ forward (ChoiceParser.operator_call 0 children).
Proof.
  intros children.
  assert (Hb : forward (TerminalParser "a")) by apply TerminalParser_forward.
  assert (Hcs : Forall forward children)
    by (repeat constructor; apply TerminalParser_forward).
  split; [done|]. split; [done|].
  destruct (cursor_never_moves_back 0 0 (TerminalParser "a") children Hb Hcs)
    as (H1 & H2 & _).
  by split.
Defined.

(** A rule over ['a' == 1] and the choice [('a' == 1) | 'b']. *)
Lemma matches_only_grow_witness :
  let tagged := MatchParser.operator_call (TerminalParser "a") 1 in
  let children := [tagged; TerminalParser "b"] in
  grows_matches tagged /\ Forall grows_matches children
  /\ grows_matches (RuleCall.operator_call 0 tagged)
  /\ grows_matches (ChoiceParser.operator_call 0 children).
Proof.
  intros tagged children.
  assert (Ht : grows_matches tagged)
    by apply MatchParser_grows, TerminalParser_grows.
  assert (Hcs : Forall grows_matches children)
    by (repeat constructor; [done|apply TerminalParser_grows]).
  split; [done|]. split; [done|].
  exact (matches_only_grow 0 0 tagged children Ht Hcs).
Defined.

(** A rule already entered once, at position 0. *)
Lemma deactivate_activate_witness :
  let c := rule.MkContext 1 3 {[ 0 := [0] ]} (rule.MkLeftRecursion rule.inactive 0) in
  is_Some (rule.positions c !! 0)
  /\ rule.deactivate 0 (rule.activate 0 c).2 = c.
Proof.
  intros c.
  assert (H : is_Some (rule.positions c !! 0)) by by eexists.
  split; [done|].
  exact (proj1 (proj2 (deactivate_activate 0 c)) H).
Defined.

(** A rule entered at 0 and entered again at 0, nothing detected yet. *)
Lemma parse_left_recursive_entry_witness :
  let c := rule.MkContext 0 3 {[ 0 := [0] ]} (rule.MkLeftRecursion rule.inactive 0) in
  (rule.activate 0 c).1 = true
  /\ rule.parse 0 0 (fun _ => None) c
     = Some (rule.rejected_left_recursion,
             rule.MkContext 0 3 {[ 0 := [0] ]} (rule.MkLeftRecursion rule.reject 0)).
Proof.
  intros c.
  assert (H : (rule.activate 0 c).1 = true) by reflexivity.
  split; [done|].
  exact (parse_left_recursive_entry 0 0 (fun _ => None) c H).
Defined.

(** A rule whose expression is a reference to the rule itself. *)
Lemma parse_left_recursion_discipline_witness :
  let leaf : rule.expression := fun c => Some (rule.rejected, c) in
  let c := rule.MkContext 0 3 ∅ (rule.MkLeftRecursion rule.inactive 0) in
  lr_disciplined leaf
  /\ lr_disciplined (rule.parse 1 0 leaf)
  /\ (rule.activate 0 c).1 = false
  /\ exists res c', rule.parse 1 0 (rule.parse 1 0 leaf) c = Some (res, c')
       /\ rule.left_recursion c' = rule.left_recursion c.
Proof.
  intros leaf c.
  assert (Hleaf : lr_disciplined leaf) by (intros ? ? ? [= <- <-]; by left).
  pose proof (proj1 (parse_left_recursion_discipline 1 0 leaf Hleaf)) as Hbody.
  split; [done|]. split; [done|]. split; [reflexivity|].
  destruct (rule.parse 1 0 (rule.parse 1 0 leaf) c) as [[res c']|] eqn:Hp;
    [|by vm_compute in Hp].
  exists res, c'. split; [done|].
  exact (proj2 (parse_left_recursion_discipline 1 0 _ Hbody) c res c' eq_refl Hp).
Defined.


Lemma any_element_advances : lr_advances_under (fun _ => True) any_element.
Proof.
  intros c _. unfold any_element. simpl. case_bool_decide as Hlt.
  - eexists _, _. split; [done|]. intros _. simpl. repeat split; lia.
  - eexists _, _. split; [done|]. done.
Qed.

(** The grow loop over [any_element] from the cursor 1 of an input of 3. *)
Lemma lr_loop_terminates_when_advancing_witness :
  let c := rule.MkContext 1 3 ∅ (rule.MkLeftRecursion rule.accept 1) in
  lr_advances_under (fun _ => True) any_element
  /\ exists res c', rule.lr_loop 3 any_element rule.accepted c = Some (res, c')
       /\ (res = rule.accepted \/ res = rule.rejected_left_recursion).
Proof.
  intros c. split; [apply any_element_advances|].
  exact (proj2 (lr_loop_terminates_when_advancing (fun _ => True) any_element
                  rule.accepted c any_element_advances I)).
Defined.

(** [1+1+1] with budget 6. *)
Lemma additions_accepted_witness :
  2 + 4 <= 6
  /\ exists w', run additions 6 (RuleReference 0) (at_start (ones 2)) = Some (Ret true, w')
       /\ sourcePosition (pc w') = 5.
Proof.
  assert (H : 2 + 4 <= 6) by lia.
  split; [done|].
  destruct (additions_accepted 2 6 H) as (w' & Hrun & Hpos & _).
  by exists w'.
Defined.

End FurtherWitnesses.
